(** * Image thresholding: BMP codec, threshold kernel and row partitioner

    A shallow embedding of [umbralizar.cpp] (the three variants
    [2_hilos], [3_procesos] and [4_openMP] share the codec and the kernel
    verbatim and differ only in [main]).

    Conventions of the embedding:
    - [unsigned char] is [byte]; its integer value is [byte.unsigned];
    - [int] is a [Z] wrapped by [to_int] (32-bit two's complement),
      [short] by [to_short], [size_t] by [to_size_t] (64 bits);
    - [vector<T>] is [list T]; [v.size()] is [size v]; [v[i]] is [indice],
      whose outcome is [Indefinido] out of range;
    - a [for] loop with an [int] counter is [para] over the counter values
      [rango a b]; its state is passed explicitly;
    - a file is the [list byte] of its contents; the target is
      little-endian, as the packed header is read and written through its
      object representation;
    - a procedure that can stop the process returns a [resultado];
    - memory is unbounded: [std::bad_alloc] is not modelled.

    The first part holds the definitions, the second part the
    properties. *)

From Stdlib Require Import ZArith Lia List Bool.
From coqutil Require Import Byte Word.LittleEndianList.
Import ListNotations.
Local Open Scope Z_scope.

(** ** Machine integers *)

Definition INT_MAX : Z := 2147483647.

(** Conversion to [int]: reduction modulo 2^32 into [-2^31, 2^31). *)
Definition to_int (z : Z) : Z := (z + 2 ^ 31) mod 2 ^ 32 - 2 ^ 31.

(** Conversion to [short]. *)
Definition to_short (z : Z) : Z := (z + 2 ^ 15) mod 2 ^ 16 - 2 ^ 15.

(** Conversion to [size_t] (and arithmetic in [size_t]). *)
Definition to_size_t (z : Z) : Z := z mod 2 ^ 64.

(** Conversion to [unsigned char]. *)
Definition to_uchar (z : Z) : byte := byte.of_Z z.

(** ** Pixels and the threshold kernel *)

(** [struct Pixel { unsigned char blue, green, red; }] *)
Record Pixel : Type := mkPixel { blue : byte; green : byte; red : byte }.

Definition negro : Pixel := mkPixel Byte.x00 Byte.x00 Byte.x00.
Definition blanco : Pixel := mkPixel Byte.xff Byte.xff Byte.xff.

(** [(pixel.red + pixel.green + pixel.blue) / 3]: the three operands are
    promoted to [int], added left to right in [int], and the quotient
    (truncating division) is converted to [unsigned char]. *)
Definition suma_canales (pixel : Pixel) : Z :=
  to_int (to_int (byte.unsigned (red pixel) + byte.unsigned (green pixel))
          + byte.unsigned (blue pixel)).

Definition promedio (pixel : Pixel) : byte :=
  to_uchar (Z.quot (suma_canales pixel) 3).

(** [void umbralizar(Pixel& pixel, unsigned char umbral)]: the pixel after
    the call. *)
Definition umbralizar (pixel : Pixel) (umbral : byte) : Pixel :=
  if byte.unsigned (promedio pixel) <? byte.unsigned umbral
  then mkPixel (to_uchar 0) (to_uchar 0) (to_uchar 0)
  else mkPixel (to_uchar 255) (to_uchar 255) (to_uchar 255).

(** The kernel at a fixed threshold, as a function of the pixel. *)
Definition umbralizar_con (umbral : byte) (pixel : Pixel) : Pixel :=
  umbralizar pixel umbral.

(** What an implementation with an 8-bit accumulator would compute. *)
Definition promedio_8bits (pixel : Pixel) : Z :=
  ((byte.unsigned (red pixel) + byte.unsigned (green pixel)
    + byte.unsigned (blue pixel)) mod 256) / 3.

(** ** Outcomes of procedures that may stop the process *)

Inductive resultado (A : Type) : Type :=
| Ok (a : A)             (* normal return *)
| Salida (codigo : Z)    (* [exit(codigo)] *)
| Excepcion              (* uncaught [std::length_error]: [std::terminate] *)
| Indefinido.            (* [operator[]] out of range, division by zero *)

Arguments Ok {A} a.
Arguments Salida {A} codigo.
Arguments Excepcion {A}.
Arguments Indefinido {A}.

Definition ligar {A B : Type} (r : resultado A) (k : A -> resultado B)
  : resultado B :=
  match r with
  | Ok a => k a
  | Salida c => Salida c
  | Excepcion => Excepcion
  | Indefinido => Indefinido
  end.

Notation "x <- r ;; k" := (ligar r (fun x => k))
  (at level 61, r at next level, right associativity).

(** ** Vectors and counted loops *)

(** [v[i]] read through [operator[]], with an [int] or [size_t] index. *)
Definition indice {A : Type} (v : list A) (i : Z) : resultado A :=
  if i <? 0 then Indefinido
  else match nth_error v (Z.to_nat i) with
       | Some x => Ok x
       | None => Indefinido
       end.

(** [v[i] = x] for an index already known to be in range; lengths never
    change. *)
Fixpoint poner_nat {A : Type} (v : list A) (i : nat) (x : A) : list A :=
  match v, i with
  | [], _ => []
  | _ :: r, O => x :: r
  | y :: r, S i' => y :: poner_nat r i' x
  end.

Definition poner {A : Type} (v : list A) (i : Z) (x : A) : list A :=
  if i <? 0 then v else poner_nat v (Z.to_nat i) x.

Definition size {A : Type} (v : list A) : Z := Z.of_nat (length v).

(** The values taken by the counter of [for (int i = a; i < b; ++i)]. *)
Definition rango (a b : Z) : list Z :=
  map (fun k => a + Z.of_nat k) (seq 0 (Z.to_nat (b - a))).

(** The loop itself: the body is run on the state for each counter value
    in turn and the loop stops at the first abnormal outcome. *)
Fixpoint para {St : Type} (indices : list Z) (cuerpo : Z -> St -> resultado St)
  (s : St) : resultado St :=
  match indices with
  | [] => Ok s
  | i :: r => s' <- cuerpo i s ;; para r cuerpo s'
  end.

Abbreviation Matriz := (list (list Pixel)).

(** ** The BMP header *)

(** [#pragma pack(1) struct BMPHeader]; [sizeof(BMPHeader)] is 54. *)
Record BMPHeader : Type := mkBMPHeader {
  signature : list byte;          (* char[2] *)
  fileSize : Z;
  reserved : Z;
  dataOffset : Z;
  headerSize : Z;
  width : Z;
  height : Z;
  planes : Z;                     (* short *)
  bitsPerPixel : Z;               (* short *)
  compression : Z;
  dataSize : Z;
  horizontalResolution : Z;
  verticalResolution : Z;
  colors : Z;
  importantColors : Z
}.

Definition sizeof_BMPHeader : Z := 54.
Definition sizeof_Pixel : Z := 3.

(** Object representation of a header (little-endian target), as written by
    [archivo.write(reinterpret_cast<char*>(&header), sizeof(BMPHeader))]. *)
Definition bytes_de_header (h : BMPHeader) : list byte :=
  firstn 2 (signature h ++ [Byte.x00; Byte.x00])
  ++ le_split 4 (fileSize h) ++ le_split 4 (reserved h)
  ++ le_split 4 (dataOffset h) ++ le_split 4 (headerSize h)
  ++ le_split 4 (width h) ++ le_split 4 (height h)
  ++ le_split 2 (planes h) ++ le_split 2 (bitsPerPixel h)
  ++ le_split 4 (compression h) ++ le_split 4 (dataSize h)
  ++ le_split 4 (horizontalResolution h) ++ le_split 4 (verticalResolution h)
  ++ le_split 4 (colors h) ++ le_split 4 (importantColors h).

Definition campo_int (raw : list byte) (desde : nat) : Z :=
  to_int (le_combine (firstn 4 (skipn desde raw))).

Definition campo_short (raw : list byte) (desde : nat) : Z :=
  to_short (le_combine (firstn 2 (skipn desde raw))).

(** The header seen through the struct's fields, from the 54 bytes of its
    object representation. *)
Definition header_de_bytes (raw : list byte) : BMPHeader :=
  {| signature := firstn 2 raw;
     fileSize := campo_int raw 2;
     reserved := campo_int raw 6;
     dataOffset := campo_int raw 10;
     headerSize := campo_int raw 14;
     width := campo_int raw 18;
     height := campo_int raw 22;
     planes := campo_short raw 26;
     bitsPerPixel := campo_short raw 28;
     compression := campo_int raw 30;
     dataSize := campo_int raw 34;
     horizontalResolution := campo_int raw 38;
     verticalResolution := campo_int raw 42;
     colors := campo_int raw 46;
     importantColors := campo_int raw 50 |}.

Definition bytes_de_pixel (p : Pixel) : list byte := [blue p; green p; red p].

Definition pixel_de_bytes (raw : list byte) : Pixel :=
  mkPixel (nth 0 raw Byte.x00) (nth 1 raw Byte.x00) (nth 2 raw Byte.x00).

(** ** Input stream *)

(** An [ifstream] opened on a file: the get position and [failbit]. *)
Record ifstream : Type := mkIfstream { pos : nat; failbit : bool }.

(** [archivo.read(dst, n)]: the bytes extracted and the stream afterwards.
    Nothing is extracted from a failed stream; fewer than [n] available
    bytes set [failbit]. *)
Definition read (archivo : list byte) (n : nat) (s : ifstream)
  : list byte * ifstream :=
  if failbit s then ([], s)
  else
    let disp := firstn n (skipn (pos s) archivo) in
    (disp, mkIfstream (pos s + length disp) (length disp <? n)%nat).

(** The destination object after a read: the extracted bytes replace the
    first bytes of its representation, the rest keeps its old contents. *)
Definition sobrescribir (nuevos viejos : list byte) : list byte :=
  nuevos ++ skipn (length nuevos) viejos.

(** [archivo.seekg(destino)] to an absolute position: no effect on a
    failed stream, failure on a negative target. The target may lie
    beyond the end of the file. *)
Definition seekg (destino : Z) (s : ifstream) : ifstream :=
  if failbit s then s
  else if destino <? 0 then mkIfstream (pos s) true
  else mkIfstream (Z.to_nat destino) false.

Definition seekg_beg (off : Z) (s : ifstream) : ifstream := seekg off s.

Definition seekg_cur (off : Z) (s : ifstream) : ifstream :=
  seekg (Z.of_nat (pos s) + off) s.

(** ** leerArchivoBMP *)

(** [vector<T>(n)] with [n] an [int]: a negative [n] converts to a
    [size_t] above [max_size()] and the constructor throws. *)
Definition vector_n {A : Type} (n : Z) (x : A) : resultado (list A) :=
  if n <? 0 then Excepcion else Ok (repeat x (Z.to_nat n)).

(** [archivo.read(reinterpret_cast<char*>(&matriz[i][j]), sizeof(Pixel))] *)
Definition leer_pixel (archivo : list byte) (i j : Z)
  (st : Matriz * ifstream) : resultado (Matriz * ifstream) :=
  fila <- indice (fst st) i ;;
  px <- indice fila j ;;
  let '(bs, s') := read archivo (Z.to_nat sizeof_Pixel) (snd st) in
  let px' := pixel_de_bytes (sobrescribir bs (bytes_de_pixel px)) in
  Ok (poner (fst st) i (poner fila j px'), s').

Definition leer_fila (archivo : list byte) (w : Z) (i : Z)
  (st : Matriz * ifstream) : resultado (Matriz * ifstream) :=
  st' <- para (rango 0 w) (fun j st => leer_pixel archivo i j st) st ;;
  Ok (fst st', seekg_cur (Z.rem w 4) (snd st')).

(** [basura] is the indeterminate initial content of the local [header];
    [archivo] is [None] when the file cannot be opened. *)
Definition leerArchivoBMP (basura : list byte) (archivo : option (list byte))
  : resultado Matriz :=
  match archivo with
  | None => Salida 1
  | Some contenido =>
      let '(bs, s1) :=
        read contenido (Z.to_nat sizeof_BMPHeader) (mkIfstream 0 false) in
      let header := header_de_bytes (sobrescribir bs basura) in
      if negb (bitsPerPixel header =? 24) then Salida 1
      else
        let s2 := seekg_beg (dataOffset header) s1 in
        fila <- vector_n (width header) negro ;;
        matriz <- vector_n (height header) fila ;;
        st <- para (rango 0 (height header))
                (fun i st => leer_fila contenido (width header) i st)
                (matriz, s2) ;;
        Ok (fst st)
  end.

(** ** guardarMatrizEnBMP *)

(** [matriz.size() * ((3 * matriz[0].size()) + (matriz[0].size() % 4))],
    evaluated in [size_t]. *)
Definition tamano_datos (h w : Z) : Z :=
  to_size_t (h * to_size_t (to_size_t (3 * w) + w mod 4)).

Definition header_de_matriz (h w : Z) : BMPHeader :=
  {| signature := [Byte.x42; Byte.x4d];
     fileSize := to_int (to_size_t (to_size_t (sizeof_BMPHeader + tamano_datos h w) + 2));
     reserved := 0;
     dataOffset := to_int sizeof_BMPHeader;
     headerSize := 40;
     width := to_int w;
     height := to_int h;
     planes := 1;
     bitsPerPixel := 24;
     compression := 0;
     dataSize := to_int (to_size_t (tamano_datos h w + 2));
     horizontalResolution := 0;
     verticalResolution := 0;
     colors := 0;
     importantColors := 0 |}.

(** The state of the output stream is the sequence of bytes written. *)
Definition write (bs : list byte) (salida : list byte) : list byte :=
  salida ++ bs.

Definition escribir_pixel (matriz : Matriz) (i j : Z) (salida : list byte)
  : resultado (list byte) :=
  fila <- indice matriz i ;;
  px <- indice fila j ;;
  Ok (write (bytes_de_pixel px) salida).

Definition escribir_fila (matriz : Matriz) (w : Z) (i : Z)
  (salida : list byte) : resultado (list byte) :=
  salida' <- para (rango 0 w) (fun j s => escribir_pixel matriz i j s) salida ;;
  para (rango 0 (w mod 4)) (fun _ s => Ok (write [Byte.x00] s)) salida'.

(** [creable] tells whether the output file could be opened. The result
    is the content of the file. *)
Definition guardarMatrizEnBMP (creable : bool) (matriz : Matriz)
  : resultado (list byte) :=
  if negb creable then Salida 1
  else
    fila0 <- indice matriz 0 ;;
    let w := size fila0 in
    let h := size matriz in
    para (rango 0 h) (fun i s => escribir_fila matriz w i s)
      (write (bytes_de_header (header_de_matriz h w)) []).

(** ** Thresholding a block of rows *)

(** [umbralizar(matriz[i][j], umbral)] *)
Definition umbralizar_celda (umbral : byte) (i j : Z) (matriz : Matriz)
  : resultado Matriz :=
  fila <- indice matriz i ;;
  px <- indice fila j ;;
  Ok (poner matriz i (poner fila j (umbralizar px umbral))).

(** The inner loop [for (j = 0; j < matriz[0].size(); ++j)]. The bound is
    read from row 0 of the grid being processed; no assignment changes a
    row's length. *)
Definition umbralizar_fila (umbral : byte) (i : Z) (matriz : Matriz)
  : resultado Matriz :=
  fila0 <- indice matriz 0 ;;
  para (rango 0 (size fila0)) (fun j m => umbralizar_celda umbral i j m) matriz.

(** [void umbralizarMatriz(matriz, umbral, inicio, fin)] *)
Definition umbralizarMatriz (matriz : Matriz) (umbral : byte) (inicio fin : Z)
  : resultado Matriz :=
  para (rango inicio fin) (fun i m => umbralizar_fila umbral i m) matriz.

(** ** The partitioner *)

(** [int tamanoBloque = matriz.size() / numHilos;] the [int] divisor is
    converted to [size_t] and the quotient back to [int]. *)
Definition tamanoBloque (h numHilos : Z) : Z :=
  to_int (h / to_size_t numHilos).

(** [int inicio = i * tamanoBloque;] *)
Definition inicio (h numHilos i : Z) : Z :=
  to_int (i * tamanoBloque h numHilos).

(** [int fin = (i == numHilos - 1) ? matriz.size() : inicio + tamanoBloque;]
    the conditional has type [size_t]. *)
Definition fin (h numHilos i : Z) : Z :=
  to_int (if i =? to_int (numHilos - 1) then h
          else to_size_t (to_int (inicio h numHilos i + tamanoBloque h numHilos))).

(** The row ranges handed to workers 0 .. numHilos-1. *)
Definition particion (h numHilos : Z) : list (Z * Z) :=
  map (fun i => (inicio h numHilos i, fin h numHilos i)) (rango 0 numHilos).

(** ** The three programs *)

(** [2_hilos]: the threads share [matriz]; they are run here in index
    order ([bloques_conmutan] below: workers on disjoint blocks commute).
    [matriz.size()] is the same at every evaluation, no assignment changes
    it. [main] then writes the grid once. *)
Definition umbralizar_hilos (numHilos : Z) (matriz : Matriz) (umbral : byte)
  : resultado Matriz :=
  hilos <- vector_n numHilos tt ;;
  if to_size_t numHilos =? 0 then Indefinido
  else
    para (rango 0 numHilos)
      (fun i m => umbralizarMatriz m umbral
                    (inicio (size m) numHilos i) (fin (size m) numHilos i))
      matriz.

Definition main_hilos (basura : list byte) (numHilos : Z)
  (entrada : option (list byte)) (creable : bool) (umbral : byte)
  : resultado (list byte) :=
  matriz <- leerArchivoBMP basura entrada ;;
  matriz' <- umbralizar_hilos numHilos matriz umbral ;;
  guardarMatrizEnBMP creable matriz'.

(** [4_openMP]: the collapsed double loop, iteration by iteration. *)
Definition umbralizar_omp (matriz : Matriz) (umbral : byte) : resultado Matriz :=
  para (rango 0 (size matriz))
    (fun i m =>
       fila0 <- indice m 0 ;;
       para (rango 0 (size fila0)) (fun j m' => umbralizar_celda umbral i j m') m)
    matriz.

Definition main_omp (basura : list byte) (entrada : option (list byte))
  (creable : bool) (umbral : byte) : resultado (list byte) :=
  matriz <- leerArchivoBMP basura entrada ;;
  matriz' <- umbralizar_omp matriz umbral ;;
  guardarMatrizEnBMP creable matriz'.

(** [3_procesos]: child [i] works on its own copy of the parent's grid
    (the address space is duplicated by [fork]), thresholds the rows of
    its block and writes the whole of its copy to the output file. The
    result is the file content that child [i] writes. *)
Definition hijo (numProcesos i : Z) (matriz : Matriz) (creable : bool)
  (umbral : byte) : resultado (list byte) :=
  let ini := inicio (size matriz) numProcesos i in
  let fi := fin (size matriz) numProcesos i in
  matriz' <- para (rango ini fi)
               (fun j m =>
                  fila0 <- indice m 0 ;;
                  para (rango 0 (size fila0))
                    (fun k m' => umbralizar_celda umbral j k m') m)
               matriz ;;
  guardarMatrizEnBMP creable matriz'.

(** The parent writes nothing and every [fork] is taken to succeed.
    [ultimo] is the child whose write of the output file completes last;
    the file is left with that child's bytes. *)
Definition main_procesos (basura : list byte) (numProcesos ultimo : Z)
  (entrada : option (list byte)) (creable : bool) (umbral : byte)
  : resultado (list byte) :=
  matriz <- leerArchivoBMP basura entrada ;;
  if to_size_t numProcesos =? 0 then Indefinido
  else
    pids <- vector_n numProcesos 0 ;;
    hijo numProcesos ultimo matriz creable umbral.

(** ** Reference notions used in the statements *)

(** [f] applied to the elements whose index lies in [[a, b)]; the index of
    the head is [i]. *)
Fixpoint aplicar_desde {A : Type} (f : A -> A) (a b i : Z) (v : list A)
  : list A :=
  match v with
  | [] => []
  | x :: r =>
      (if (a <=? i) && (i <? b) then f x else x) :: aplicar_desde f a b (i + 1) r
  end.

Definition aplicar_rango {A : Type} (f : A -> A) (a b : Z) (v : list A)
  : list A := aplicar_desde f a b 0 v.

(** The whole grid thresholded. *)
Definition umbralizar_todo (umbral : byte) (matriz : Matriz) : Matriz :=
  map (map (umbralizar_con umbral)) matriz.

(** All rows have [w] pixels. *)
Definition rectangular (w : nat) (matriz : Matriz) : Prop :=
  Forall (fun fila => length fila = w) matriz.

(** The bytes of one stored row and of a stored grid. *)
Definition bytes_de_fila (fila : list Pixel) : list byte :=
  concat (map bytes_de_pixel fila)
  ++ repeat Byte.x00 (Z.to_nat (size fila mod 4)).

Definition bytes_de_matriz (matriz : Matriz) : list byte :=
  concat (map bytes_de_fila matriz).

(** Row padding of the BMP format: rows are aligned to 4 bytes. *)
Definition relleno_estandar (w : Z) : Z := (4 - (3 * w) mod 4) mod 4.

(** Offset in the file at which the reader expects pixel [(i, j)]. *)
Definition desplazamiento (h : BMPHeader) (i j : Z) : Z :=
  dataOffset h + i * (3 * width h + Z.rem (width h) 4) + 3 * j.

(** The rows a worker visits: the counter values of its loop
    [for (i = inicio; i < fin; ++i)]. *)
Definition filas_de (bloque : Z * Z) : list Z := rango (fst bloque) (snd bloque).

(** The header as the reader sees it after [archivo.read(&header, 54)]. *)
Definition header_leido (basura contenido : list byte) : BMPHeader :=
  header_de_bytes
    (sobrescribir
       (fst (read contenido (Z.to_nat sizeof_BMPHeader) (mkIfstream 0 false)))
       basura).

(** Offset at which the reader expects pixel [(i, j)], for a data offset
    [d] and a width [w]. *)
Definition desplazamiento_nat (d : Z) (w : nat) (i j : nat) : Z :=
  d + Z.of_nat i * (3 * Z.of_nat w + Z.of_nat w mod 4) + 3 * Z.of_nat j.

(** State of the reader when it is about to read pixel [(k, j)]: the grid
    has its final dimensions, the stream has failed or stands at the
    expected offset, and every pixel that is still to be read, or whose
    offset is at or beyond the end of the file, is zero. *)
Definition inv_lector (archivo : list byte) (d : Z) (w h : nat) (k j : nat)
  (st : Matriz * ifstream) : Prop :=
  length (fst st) = h
  /\ rectangular w (fst st)
  /\ (failbit (snd st) = true
      \/ Z.of_nat (pos (snd st)) = desplazamiento_nat d w k j)
  /\ forall i' j' fila px,
       nth_error (fst st) i' = Some fila -> nth_error fila j' = Some px ->
       (k < i')%nat \/ (i' = k /\ (j <= j')%nat)
       \/ Z.of_nat (length archivo) <= desplazamiento_nat d w i' j' ->
       px = negro.

(** ** Concrete inputs *)

(** A 54-byte file: signature, [dataOffset] 54, [headerSize] 40,
    [width] -1, [height] 1, [planes] 1, [bitsPerPixel] 24. *)
Definition archivo_ancho_negativo : list byte :=
  [Byte.x42; Byte.x4d; Byte.x36; Byte.x00; Byte.x00; Byte.x00;
   Byte.x00; Byte.x00; Byte.x00; Byte.x00; Byte.x36; Byte.x00; Byte.x00; Byte.x00;
   Byte.x28; Byte.x00; Byte.x00; Byte.x00; Byte.xff; Byte.xff; Byte.xff; Byte.xff;
   Byte.x01; Byte.x00; Byte.x00; Byte.x00; Byte.x01; Byte.x00; Byte.x18; Byte.x00;
   Byte.x00; Byte.x00; Byte.x00; Byte.x00; Byte.x00; Byte.x00; Byte.x00; Byte.x00;
   Byte.x00; Byte.x00; Byte.x00; Byte.x00; Byte.x00; Byte.x00; Byte.x00; Byte.x00;
   Byte.x00; Byte.x00; Byte.x00; Byte.x00; Byte.x00; Byte.x00; Byte.x00; Byte.x00].

Definition tres_pixeles : list Pixel := [blanco; blanco; blanco].

(** A header declaring 3 x 2 pixels at 24 bits per pixel, followed by the
    bytes of two pixels only. *)
Definition archivo_truncado : list byte :=
  [Byte.x42; Byte.x4d; Byte.x50; Byte.x00; Byte.x00; Byte.x00;
   Byte.x00; Byte.x00; Byte.x00; Byte.x00; Byte.x36; Byte.x00; Byte.x00; Byte.x00;
   Byte.x28; Byte.x00; Byte.x00; Byte.x00; Byte.x03; Byte.x00; Byte.x00; Byte.x00;
   Byte.x02; Byte.x00; Byte.x00; Byte.x00; Byte.x01; Byte.x00; Byte.x18; Byte.x00;
   Byte.x00; Byte.x00; Byte.x00; Byte.x00; Byte.x1a; Byte.x00; Byte.x00; Byte.x00;
   Byte.x00; Byte.x00; Byte.x00; Byte.x00; Byte.x00; Byte.x00; Byte.x00; Byte.x00;
   Byte.x00; Byte.x00; Byte.x00; Byte.x00; Byte.x00; Byte.x00; Byte.x00; Byte.x00;
   Byte.x64; Byte.x65; Byte.x66; Byte.x01; Byte.x02; Byte.x03].

Definition gris : Pixel := mkPixel Byte.x64 Byte.x64 Byte.x64.

(** The file of a 1 x 2 image (two rows of one pixel) whose pixels are
    both (100, 100, 100). *)
Definition archivo_2x1 : list byte :=
  [Byte.x42; Byte.x4d; Byte.x40; Byte.x00; Byte.x00; Byte.x00;
   Byte.x00; Byte.x00; Byte.x00; Byte.x00; Byte.x36; Byte.x00; Byte.x00; Byte.x00;
   Byte.x28; Byte.x00; Byte.x00; Byte.x00; Byte.x01; Byte.x00; Byte.x00; Byte.x00;
   Byte.x02; Byte.x00; Byte.x00; Byte.x00; Byte.x01; Byte.x00; Byte.x18; Byte.x00;
   Byte.x00; Byte.x00; Byte.x00; Byte.x00; Byte.x0a; Byte.x00; Byte.x00; Byte.x00;
   Byte.x00; Byte.x00; Byte.x00; Byte.x00; Byte.x00; Byte.x00; Byte.x00; Byte.x00;
   Byte.x00; Byte.x00; Byte.x00; Byte.x00; Byte.x00; Byte.x00; Byte.x00; Byte.x00;
   Byte.x64; Byte.x64; Byte.x64; Byte.x00;
   Byte.x64; Byte.x64; Byte.x64; Byte.x00].

(** ** The command line of [2_hilos] *)

(** [main(argc, argv)]: [valor] is what [stoi(argv[3])] returns, [None]
    when it throws (the exception is not caught). The value is converted
    to [unsigned char] to give the threshold. *)
Definition main_2_hilos (argc : Z) (valor : option Z) (basura : list byte)
  (numHilos : Z) (entrada : option (list byte)) (creable : bool)
  : resultado (list byte) :=
  if negb (argc =? 4) then Salida 1
  else
    match valor with
    | None => Excepcion
    | Some v => main_hilos basura numHilos entrada creable (to_uchar v)
    end.

(** ** Further notions used in the statements *)

Definition es_int (z : Z) : Prop := - 2 ^ 31 <= z <= INT_MAX.

Definition es_short (z : Z) : Prop := - 2 ^ 15 <= z < 2 ^ 15.

(** A header value that the struct can hold: two signature characters and
    every field within the range of its type. *)
Definition header_valido (H : BMPHeader) : Prop :=
  length (signature H) = 2%nat
  /\ es_int (fileSize H) /\ es_int (reserved H) /\ es_int (dataOffset H)
  /\ es_int (headerSize H) /\ es_int (width H) /\ es_int (height H)
  /\ es_short (planes H) /\ es_short (bitsPerPixel H)
  /\ es_int (compression H) /\ es_int (dataSize H)
  /\ es_int (horizontalResolution H) /\ es_int (verticalResolution H)
  /\ es_int (colors H) /\ es_int (importantColors H).

(** The pixel stored at offset [off] of a file. *)
Definition pixel_en (archivo : list byte) (off : nat) : Pixel :=
  pixel_de_bytes (firstn 3 (skipn off archivo)).

(** State of the reader of a file whose header is complete, when it is
    about to read pixel [(k, j)]: the stream stands at the expected offset
    unless the file ends before the end of that pixel, and every pixel
    already read that lies wholly inside the file holds the bytes found at
    its offset. *)
Definition inv_datos (archivo : list byte) (d : Z) (w h : nat) (k j : nat)
  (st : Matriz * ifstream) : Prop :=
  length (fst st) = h
  /\ rectangular w (fst st)
  /\ ((failbit (snd st) = false
       /\ Z.of_nat (pos (snd st)) = desplazamiento_nat d w k j)
      \/ (failbit (snd st) = true
          /\ Z.of_nat (length archivo) < desplazamiento_nat d w k j + 3))
  /\ forall i' j' fila px,
       nth_error (fst st) i' = Some fila -> nth_error fila j' = Some px ->
       (i' < k)%nat \/ (i' = k /\ (j' < j)%nat) ->
       desplazamiento_nat d w i' j' + 3 <= Z.of_nat (length archivo) ->
       px = pixel_en archivo (Z.to_nat (desplazamiento_nat d w i' j')).

(** The bytes the writer stores for a row when the width of the image is
    [w]: the first [w] pixels and the padding. *)
Definition bytes_de_fila_cortada (w : nat) (fila : list Pixel) : list byte :=
  concat (map bytes_de_pixel (firstn w fila))
  ++ repeat Byte.x00 (Z.to_nat (Z.of_nat w mod 4)).


(** The header of [archivo_2x1] with a negative data offset, followed by
    the same pixel data. *)
Definition archivo_offset_negativo : list byte :=
  [Byte.x42; Byte.x4d; Byte.x40; Byte.x00; Byte.x00; Byte.x00;
   Byte.x00; Byte.x00; Byte.x00; Byte.x00; Byte.xff; Byte.xff; Byte.xff; Byte.xff;
   Byte.x28; Byte.x00; Byte.x00; Byte.x00; Byte.x01; Byte.x00; Byte.x00; Byte.x00;
   Byte.x02; Byte.x00; Byte.x00; Byte.x00; Byte.x01; Byte.x00; Byte.x18; Byte.x00;
   Byte.x00; Byte.x00; Byte.x00; Byte.x00; Byte.x0a; Byte.x00; Byte.x00; Byte.x00;
   Byte.x00; Byte.x00; Byte.x00; Byte.x00; Byte.x00; Byte.x00; Byte.x00; Byte.x00;
   Byte.x00; Byte.x00; Byte.x00; Byte.x00; Byte.x00; Byte.x00; Byte.x00; Byte.x00;
   Byte.x64; Byte.x64; Byte.x64; Byte.x00;
   Byte.x64; Byte.x64; Byte.x64; Byte.x00].

(** * Properties *)

(** ** Facts about machine integers *)

Lemma to_int_small z : - 2 ^ 31 <= z <= INT_MAX -> to_int z = z.
Proof.
  unfold to_int, INT_MAX. intros Hz.
  rewrite Z.mod_small; lia.
Qed.

Lemma to_size_t_small z : 0 <= z < 2 ^ 64 -> to_size_t z = z.
Proof. unfold to_size_t. intros Hz. now apply Z.mod_small. Qed.

Lemma to_uchar_small z : 0 <= z < 256 -> byte.unsigned (to_uchar z) = z.
Proof.
  intros Hz. unfold to_uchar.
  rewrite byte.unsigned_of_Z. unfold byte.wrap.
  apply Z.mod_small. lia.
Qed.

Lemma byte_range (b : byte) : 0 <= byte.unsigned b <= 255.
Proof. pose proof (byte.unsigned_range b). lia. Qed.

(** ** The kernel *)

Lemma suma_canales_exacta pixel :
  suma_canales pixel
  = byte.unsigned (red pixel) + byte.unsigned (green pixel)
    + byte.unsigned (blue pixel).
Proof.
  unfold suma_canales.
  pose proof (byte_range (red pixel)).
  pose proof (byte_range (green pixel)).
  pose proof (byte_range (blue pixel)).
  rewrite (to_int_small (_ + byte.unsigned (green pixel))) by (unfold INT_MAX; lia).
  apply to_int_small. unfold INT_MAX. lia.
Qed.

Lemma promedio_exacto pixel :
  byte.unsigned (promedio pixel)
  = (byte.unsigned (red pixel) + byte.unsigned (green pixel)
     + byte.unsigned (blue pixel)) / 3.
Proof.
  unfold promedio. rewrite suma_canales_exacta.
  pose proof (byte_range (red pixel)).
  pose proof (byte_range (green pixel)).
  pose proof (byte_range (blue pixel)).
  rewrite Z.quot_div_nonneg by lia.
  apply to_uchar_small.
  split; [apply Z.div_pos; lia | apply Z.div_lt_upper_bound; lia].
Qed.

Lemma umbralizar_casos pixel umbral :
  umbralizar pixel umbral
  = if byte.unsigned umbral
       <=? (byte.unsigned (red pixel) + byte.unsigned (green pixel)
            + byte.unsigned (blue pixel)) / 3
    then blanco else negro.
Proof.
  unfold umbralizar. rewrite promedio_exacto.
  destruct (Z.ltb_spec ((byte.unsigned (red pixel) + byte.unsigned (green pixel)
                         + byte.unsigned (blue pixel)) / 3) (byte.unsigned umbral));
    destruct (Z.leb_spec (byte.unsigned umbral)
                ((byte.unsigned (red pixel) + byte.unsigned (green pixel)
                  + byte.unsigned (blue pixel)) / 3)); try lia; reflexivity.
Qed.

Lemma blanco_no_negro : blanco <> negro.
Proof. discriminate. Qed.

(** C1. For every pixel and every 8-bit threshold, [umbralizar] sets the
    three channels to 255 exactly when floor((r+g+b)/3) >= umbral and to 0
    otherwise; an average equal to the threshold gives 255, an average one
    below it gives 0. *)
Theorem umbralizar_iff_promedio (pixel : Pixel) (umbral : byte) :
  let avg := (byte.unsigned (red pixel) + byte.unsigned (green pixel)
              + byte.unsigned (blue pixel)) / 3 in
  (umbralizar pixel umbral = blanco <-> byte.unsigned umbral <= avg)
  /\ (umbralizar pixel umbral = negro <-> avg < byte.unsigned umbral)
  /\ (avg = byte.unsigned umbral -> umbralizar pixel umbral = blanco)
  /\ (avg = byte.unsigned umbral - 1 -> umbralizar pixel umbral = negro).
Proof.
  intros avg. rewrite umbralizar_casos. fold avg.
  destruct (Z.leb_spec (byte.unsigned umbral) avg) as [Hle | Hlt].
  - repeat split; intros; try lia; try reflexivity.
    exfalso. now apply blanco_no_negro.
  - repeat split; intros; try lia; try reflexivity.
    exfalso. apply blanco_no_negro. congruence.
Qed.

Lemma umbralizar_iff_promedio_witness :
  umbralizar (mkPixel Byte.x80 Byte.x80 Byte.x80) Byte.x80 = blanco
  /\ umbralizar (mkPixel Byte.x80 Byte.x80 Byte.x80) Byte.x81 = negro.
Proof.
  split.
  - apply (umbralizar_iff_promedio (mkPixel Byte.x80 Byte.x80 Byte.x80) Byte.x80).
    reflexivity.
  - apply (umbralizar_iff_promedio (mkPixel Byte.x80 Byte.x80 Byte.x80) Byte.x81).
    reflexivity.
Defined.

(** C2. After [umbralizar], each channel of the pixel is exactly 0 or
    exactly 255, and the three channels are equal. *)
Theorem umbralizar_binario (pixel : Pixel) (umbral : byte) :
  let q := umbralizar pixel umbral in
  (byte.unsigned (blue q) = 0 \/ byte.unsigned (blue q) = 255)
  /\ (byte.unsigned (green q) = 0 \/ byte.unsigned (green q) = 255)
  /\ (byte.unsigned (red q) = 0 \/ byte.unsigned (red q) = 255)
  /\ blue q = green q /\ green q = red q.
Proof.
  cbv zeta. unfold umbralizar.
  destruct (byte.unsigned (promedio pixel) <? byte.unsigned umbral); cbn;
    repeat split; auto.
Qed.

(** C8. The channel sum is formed in [int], which holds 765, so the
    average is the exact floor((r+g+b)/3) and never the quotient of a sum
    reduced modulo 256; the pixel (255,255,255) has average 255, where an
    8-bit accumulator would give 84. *)
Theorem promedio_sin_desborde (pixel : Pixel) :
  suma_canales pixel
  = byte.unsigned (red pixel) + byte.unsigned (green pixel)
    + byte.unsigned (blue pixel)
  /\ 0 <= suma_canales pixel <= 765
  /\ 765 < 2 ^ 15
  /\ byte.unsigned (promedio pixel) = suma_canales pixel / 3
  /\ byte.unsigned (promedio blanco) = 255
  /\ promedio_8bits blanco = 84.
Proof.
  pose proof (byte_range (red pixel)).
  pose proof (byte_range (green pixel)).
  pose proof (byte_range (blue pixel)).
  rewrite promedio_exacto, suma_canales_exacta.
  repeat split; try lia; reflexivity.
Qed.

(** C9. Thresholding is idempotent: a second pass with the same threshold
    leaves the pixel produced by the first pass unchanged, for every
    threshold including 0 and 255. *)
Theorem umbralizar_idempotente (pixel : Pixel) (umbral : byte) :
  umbralizar (umbralizar pixel umbral) umbral = umbralizar pixel umbral.
Proof.
  pose proof (byte_range umbral) as Hu.
  rewrite (umbralizar_casos pixel).
  destruct (Z.leb_spec (byte.unsigned umbral)
              ((byte.unsigned (red pixel) + byte.unsigned (green pixel)
                + byte.unsigned (blue pixel)) / 3)) as [Hle | Hlt].
  - rewrite umbralizar_casos. cbn.
    destruct (Z.leb_spec (byte.unsigned umbral) 255); [reflexivity | lia].
  - rewrite umbralizar_casos. cbn.
    assert (0 <= (byte.unsigned (red pixel) + byte.unsigned (green pixel)
                  + byte.unsigned (blue pixel)) / 3).
    { pose proof (byte_range (red pixel)).
      pose proof (byte_range (green pixel)).
      pose proof (byte_range (blue pixel)).
      apply Z.div_pos; lia. }
    destruct (Z.leb_spec (byte.unsigned umbral) 0); [lia | reflexivity].
Qed.

(** ** Loops, indexing and in-place update *)

Lemma rango_length a b : length (rango a b) = Z.to_nat (b - a).
Proof. unfold rango. now rewrite length_map, length_seq. Qed.

Lemma rango_vacio a b : b <= a -> rango a b = [].
Proof.
  intros Hab. unfold rango.
  replace (Z.to_nat (b - a)) with 0%nat by lia. reflexivity.
Qed.

Lemma rango_snoc a (n : nat) :
  rango a (a + Z.of_nat (S n)) = rango a (a + Z.of_nat n) ++ [a + Z.of_nat n].
Proof.
  unfold rango.
  replace (Z.to_nat (a + Z.of_nat (S n) - a)) with (S n) by lia.
  replace (Z.to_nat (a + Z.of_nat n - a)) with n by lia.
  rewrite seq_S, map_app. reflexivity.
Qed.

Lemma In_rango a b i : In i (rango a b) <-> a <= i < b.
Proof.
  unfold rango. rewrite in_map_iff. split.
  - intros [k [<- Hk]]. apply in_seq in Hk. lia.
  - intros Hi. exists (Z.to_nat (i - a)). split; [lia | apply in_seq; lia].
Qed.

Lemma para_app {St : Type} (l1 l2 : list Z) (cuerpo : Z -> St -> resultado St) s :
  para (l1 ++ l2) cuerpo s = (s' <- para l1 cuerpo s ;; para l2 cuerpo s').
Proof.
  revert s. induction l1 as [| i l1 IH]; intros s; cbn.
  - reflexivity.
  - destruct (cuerpo i s); cbn; auto.
Qed.

(** Loop rule: an invariant indexed by the number of completed
    iterations. *)
Lemma para_invariante {St : Type} (I : nat -> St -> Prop)
  (cuerpo : Z -> St -> resultado St) (a : Z) (n : nat) (s0 : St) :
  I 0%nat s0 ->
  (forall k s, (k < n)%nat -> I k s ->
     exists s', cuerpo (a + Z.of_nat k) s = Ok s' /\ I (S k) s') ->
  exists s', para (rango a (a + Z.of_nat n)) cuerpo s0 = Ok s' /\ I n s'.
Proof.
  intros H0. induction n as [| n IH]; intros Hpaso.
  - exists s0. rewrite rango_vacio by lia. auto.
  - destruct IH as [s1 [Hs1 HI1]].
    { intros k s Hk. apply Hpaso. lia. }
    destruct (Hpaso n s1) as [s2 [Hs2 HI2]]; [lia | assumption |].
    exists s2. rewrite rango_snoc, para_app, Hs1. cbn.
    rewrite Hs2. auto.
Qed.

(** The same rule for a loop from 0 to a non-negative bound. *)
Lemma para_invariante_0 {St : Type} (I : nat -> St -> Prop)
  (cuerpo : Z -> St -> resultado St) (b : Z) (s0 : St) :
  0 <= b ->
  I 0%nat s0 ->
  (forall k s, (k < Z.to_nat b)%nat -> I k s ->
     exists s', cuerpo (Z.of_nat k) s = Ok s' /\ I (S k) s') ->
  exists s', para (rango 0 b) cuerpo s0 = Ok s' /\ I (Z.to_nat b) s'.
Proof.
  intros Hb H0 Hpaso.
  destruct (para_invariante I cuerpo 0 (Z.to_nat b) s0 H0 Hpaso) as [s' Hs'].
  exists s'. replace (0 + Z.of_nat (Z.to_nat b)) with b in Hs' by lia.
  exact Hs'.
Qed.

Lemma indice_ok {A : Type} (v : list A) (i : nat) (x : A) :
  nth_error v i = Some x -> indice v (Z.of_nat i) = Ok x.
Proof.
  intros Hx. unfold indice.
  destruct (Z.ltb_spec (Z.of_nat i) 0); [lia |].
  now rewrite Nat2Z.id, Hx.
Qed.

Lemma indice_fuera {A : Type} (v : list A) (i : Z) :
  size v <= i -> indice v i = Indefinido.
Proof.
  unfold indice, size. intros Hi.
  destruct (Z.ltb_spec i 0); [reflexivity |].
  replace (nth_error v (Z.to_nat i)) with (@None A); [reflexivity |].
  symmetry. apply nth_error_None. lia.
Qed.

Lemma poner_nat_length {A : Type} (v : list A) i x :
  length (poner_nat v i x) = length v.
Proof.
  revert i. induction v as [| y v IH]; intros [| i]; cbn; auto.
Qed.

Lemma nth_error_poner_nat {A : Type} (v : list A) i x j :
  nth_error (poner_nat v i x) j
  = if Nat.eqb j i then
      match nth_error v j with Some _ => Some x | None => None end
    else nth_error v j.
Proof.
  revert i j. induction v as [| y v IH]; intros [| i] [| j]; cbn; auto.
  now destruct (Nat.eqb j i).
Qed.

Lemma poner_of_nat {A : Type} (v : list A) (i : nat) x :
  poner v (Z.of_nat i) x = poner_nat v i x.
Proof.
  unfold poner. destruct (Z.ltb_spec (Z.of_nat i) 0); [lia |].
  now rewrite Nat2Z.id.
Qed.

Lemma nth_error_aplicar_desde {A : Type} (f : A -> A) a b i (v : list A) n :
  nth_error (aplicar_desde f a b i v) n
  = option_map
      (fun x => if (a <=? i + Z.of_nat n) && (i + Z.of_nat n <? b) then f x else x)
      (nth_error v n).
Proof.
  revert i n. induction v as [| x v IH]; intros i [| n]; cbn [aplicar_desde nth_error option_map]; auto.
  - now rewrite Z.add_0_r.
  - rewrite IH. replace (i + 1 + Z.of_nat n) with (i + Z.of_nat (S n)) by lia.
    reflexivity.
Qed.

Lemma nth_error_aplicar_rango {A : Type} (f : A -> A) a b (v : list A) n :
  nth_error (aplicar_rango f a b v) n
  = option_map
      (fun x => if (a <=? Z.of_nat n) && (Z.of_nat n <? b) then f x else x)
      (nth_error v n).
Proof. unfold aplicar_rango. now rewrite nth_error_aplicar_desde. Qed.

Lemma aplicar_rango_length {A : Type} (f : A -> A) a b (v : list A) :
  length (aplicar_rango f a b v) = length v.
Proof.
  unfold aplicar_rango. generalize 0.
  induction v as [| x v IH]; intros i; cbn; auto.
Qed.

Lemma aplicar_rango_vacio {A : Type} (f : A -> A) a (v : list A) :
  aplicar_rango f a a v = v.
Proof.
  apply nth_error_ext. intros n. rewrite nth_error_aplicar_rango.
  destruct (nth_error v n); cbn; [| reflexivity].
  destruct (Z.leb_spec a (Z.of_nat n)), (Z.ltb_spec (Z.of_nat n) a);
    cbn; try reflexivity; lia.
Qed.

Lemma aplicar_rango_todo {A : Type} (f : A -> A) (v : list A) :
  aplicar_rango f 0 (size v) v = map f v.
Proof.
  apply nth_error_ext. intros n.
  rewrite nth_error_aplicar_rango, nth_error_map.
  destruct (nth_error v n) eqn:Hn; cbn; [| reflexivity].
  assert (n < length v)%nat by (apply nth_error_Some; congruence).
  unfold size.
  destruct (Z.leb_spec 0 (Z.of_nat n)), (Z.ltb_spec (Z.of_nat n) (Z.of_nat (length v)));
    cbn; try reflexivity; lia.
Qed.

(** Updating element [k] of a list already mapped on [[a, k)]. *)
Lemma poner_aplicar_rango {A : Type} (f : A -> A) a (k : nat) (v : list A) x :
  a <= Z.of_nat k ->
  nth_error v k = Some x ->
  poner_nat (aplicar_rango f a (Z.of_nat k) v) k (f x)
  = aplicar_rango f a (Z.of_nat (S k)) v.
Proof.
  intros Hak Hx. apply nth_error_ext. intros n.
  rewrite nth_error_poner_nat, !nth_error_aplicar_rango.
  destruct (Nat.eqb_spec n k) as [-> | Hne].
  - rewrite Hx. cbn [option_map].
    destruct (Z.leb_spec a (Z.of_nat k)), (Z.ltb_spec (Z.of_nat k) (Z.of_nat (S k)));
      cbn [andb]; try reflexivity; lia.
  - destruct (nth_error v n); cbn [option_map andb]; [| reflexivity].
    f_equal.
    destruct (Z.leb_spec a (Z.of_nat n)); cbn [andb]; [| reflexivity].
    destruct (Z.ltb_spec (Z.of_nat n) (Z.of_nat k)),
             (Z.ltb_spec (Z.of_nat n) (Z.of_nat (S k))); try reflexivity; lia.
Qed.

Lemma poner_nat_mismo {A : Type} (v : list A) i x :
  nth_error v i = Some x -> poner_nat v i x = v.
Proof.
  revert i. induction v as [| y v IH]; intros [| i] Hx; cbn in *;
    try discriminate.
  - congruence.
  - f_equal. auto.
Qed.

Lemma poner_nat_poner_nat {A : Type} (v : list A) i x y :
  poner_nat (poner_nat v i x) i y = poner_nat v i y.
Proof.
  revert i. induction v as [| z v IH]; intros [| i]; cbn; auto.
  f_equal. auto.
Qed.

Lemma nth_error_poner_nat_mismo {A : Type} (v : list A) i x y :
  nth_error v i = Some y -> nth_error (poner_nat v i x) i = Some x.
Proof.
  intros Hy. now rewrite nth_error_poner_nat, Nat.eqb_refl, Hy.
Qed.

Lemma aplicar_rango_compone {A : Type} (f : A -> A) a b c (v : list A) :
  a <= b <= c ->
  aplicar_rango f b c (aplicar_rango f a b v) = aplicar_rango f a c v.
Proof.
  intros Habc. apply nth_error_ext. intros n.
  rewrite !nth_error_aplicar_rango.
  destruct (nth_error v n); cbn [option_map]; [| reflexivity].
  f_equal.
  destruct (Z.leb_spec a (Z.of_nat n)), (Z.ltb_spec (Z.of_nat n) b),
           (Z.leb_spec b (Z.of_nat n)), (Z.ltb_spec (Z.of_nat n) c);
    cbn [andb]; try reflexivity; lia.
Qed.

Lemma rectangular_nth (w : nat) (m : Matriz) k fila :
  rectangular w m -> nth_error m k = Some fila -> length fila = w.
Proof.
  intros Hrect Hk. unfold rectangular in Hrect.
  rewrite Forall_forall in Hrect. apply Hrect.
  eapply nth_error_In; eassumption.
Qed.

Lemma rectangular_aplicar_rango (w : nat) (m : Matriz) (f : Pixel -> Pixel) a b :
  rectangular w m -> rectangular w (aplicar_rango (map f) a b m).
Proof.
  intros Hrect. unfold rectangular. apply Forall_forall. intros fila Hin.
  apply In_nth_error in Hin. destruct Hin as [n Hn].
  rewrite nth_error_aplicar_rango in Hn.
  destruct (nth_error m n) as [fila' |] eqn:Hm; cbn in Hn; [| discriminate].
  pose proof (rectangular_nth w m n fila' Hrect Hm) as Hlen.
  injection Hn as <-.
  destruct ((a <=? Z.of_nat n) && (Z.of_nat n <? b)); [| assumption].
  now rewrite length_map.
Qed.

(** ** Thresholding blocks of rows *)

Section Bloques.

Variable umbral : byte.

Lemma umbralizar_fila_ok (m : Matriz) (w k : nat) (fila : list Pixel) :
  rectangular w m ->
  nth_error m k = Some fila ->
  umbralizar_fila umbral (Z.of_nat k) m = Ok (poner_nat m k (map (umbralizar_con umbral) fila)).
Proof.
  intros Hrect Hk. unfold umbralizar_fila.
  destruct m as [| fila0 m']; [destruct k; discriminate |].
  change (indice (fila0 :: m') 0) with (Ok fila0). cbn [ligar].
  assert (Hw0 : length fila0 = w) by (apply (rectangular_nth w (fila0 :: m') 0%nat); auto).
  assert (Hw : length fila = w) by (eapply rectangular_nth; eauto).
  set (M := fila0 :: m') in *.
  destruct (para_invariante_0
              (fun j s => s = poner_nat M k (aplicar_rango (umbralizar_con umbral) 0 (Z.of_nat j) fila))
              (fun j m0 => umbralizar_celda umbral (Z.of_nat k) j m0)
              (size fila0) M) as [s' [Hs' HI]].
  - unfold size. lia.
  - cbn [Z.of_nat]. rewrite aplicar_rango_vacio. symmetry. now apply poner_nat_mismo.
  - intros j s Hj ->. unfold size in Hj. rewrite Nat2Z.id in Hj.
    destruct (nth_error fila j) as [px |] eqn:Hpx.
    2:{ apply nth_error_None in Hpx. lia. }
    unfold umbralizar_celda.
    rewrite (indice_ok _ k (aplicar_rango (umbralizar_con umbral) 0 (Z.of_nat j) fila))
      by (eapply nth_error_poner_nat_mismo; eassumption).
    cbn [ligar].
    rewrite (indice_ok _ j px).
    2:{ rewrite nth_error_aplicar_rango, Hpx. cbn [option_map].
        destruct (Z.ltb_spec (Z.of_nat j) (Z.of_nat j)); [lia |].
        now rewrite andb_false_r. }
    cbn [ligar]. eexists. split; [reflexivity |].
    rewrite !poner_of_nat, poner_nat_poner_nat.
    change (umbralizar px umbral) with (umbralizar_con umbral px).
    rewrite (poner_aplicar_rango (umbralizar_con umbral) 0 j fila px) by (auto; lia).
    reflexivity.
  - rewrite Hs', HI. unfold size. rewrite Nat2Z.id, Hw0, <- Hw.
    fold (size fila). now rewrite aplicar_rango_todo.
Qed.

Lemma umbralizarMatriz_ok (m : Matriz) (w : nat) (a b : Z) :
  rectangular w m ->
  0 <= a <= b -> b <= size m ->
  umbralizarMatriz m umbral a b = Ok (aplicar_rango (map (umbralizar_con umbral)) a b m).
Proof.
  intros Hrect Hab Hb. unfold umbralizarMatriz.
  destruct (para_invariante
              (fun k s => s = aplicar_rango (map (umbralizar_con umbral)) a (a + Z.of_nat k) m)
              (fun i m0 => umbralizar_fila umbral i m0)
              a (Z.to_nat (b - a)) m) as [s' [Hs' HI]].
  - cbn [Z.of_nat]. rewrite Z.add_0_r. now rewrite aplicar_rango_vacio.
  - intros k s Hk ->.
    replace (a + Z.of_nat k) with (Z.of_nat (Z.to_nat a + k)) by lia.
    destruct (nth_error m (Z.to_nat a + k)) as [fila |] eqn:Hfila.
    2:{ apply nth_error_None in Hfila. unfold size in Hb. lia. }
    rewrite (umbralizar_fila_ok _ w (Z.to_nat a + k) fila).
    + eexists. split; [reflexivity |].
      rewrite (poner_aplicar_rango (map (umbralizar_con umbral)) a (Z.to_nat a + k) m fila) by (auto; lia).
      f_equal. lia.
    + now apply rectangular_aplicar_rango.
    + rewrite nth_error_aplicar_rango, Hfila. cbn [option_map].
      destruct (Z.ltb_spec (Z.of_nat (Z.to_nat a + k)) (Z.of_nat (Z.to_nat a + k)));
        [lia |].
      now rewrite andb_false_r.
  - replace (a + Z.of_nat (Z.to_nat (b - a))) with b in * by lia.
    now rewrite Hs', HI.
Qed.

End Bloques.

(** ** Arithmetic of the partitioner *)

Section Particion.

Variables h W : Z.
Hypothesis Hh : 0 <= h <= INT_MAX.
Hypothesis HW : 1 <= W <= INT_MAX.

Lemma tamanoBloque_exacto : tamanoBloque h W = h / W.
Proof.
  unfold tamanoBloque, INT_MAX in *.
  rewrite to_size_t_small by lia.
  apply to_int_small. unfold INT_MAX.
  assert (0 <= h / W) by (apply Z.div_pos; lia).
  assert (h / W <= h) by (apply Z.div_le_upper_bound; nia).
  lia.
Qed.

Lemma bloques_dentro i : 0 <= i <= W -> 0 <= i * (h / W) <= h.
Proof.
  intros Hi.
  assert (0 <= h / W) by (apply Z.div_pos; lia).
  assert (W * (h / W) <= h) by (apply Z.mul_div_le; lia).
  nia.
Qed.

Lemma inicio_exacto i : 0 <= i < W -> inicio h W i = i * (h / W).
Proof.
  intros Hi. unfold inicio. rewrite tamanoBloque_exacto.
  pose proof (bloques_dentro i ltac:(lia)).
  apply to_int_small. unfold INT_MAX in *. lia.
Qed.

Lemma fin_exacto i :
  0 <= i < W ->
  fin h W i = if i =? W - 1 then h else (i + 1) * (h / W).
Proof.
  intros Hi. unfold fin.
  rewrite inicio_exacto, tamanoBloque_exacto by assumption.
  rewrite (to_int_small (W - 1)) by (unfold INT_MAX in *; lia).
  pose proof (bloques_dentro (i + 1)) as Hsig.
  destruct (Z.eqb_spec i (W - 1)) as [-> | Hne].
  - apply to_int_small. unfold INT_MAX in *. lia.
  - specialize (Hsig ltac:(lia)).
    replace (i * (h / W) + h / W) with ((i + 1) * (h / W)) by lia.
    rewrite (to_int_small ((i + 1) * (h / W))) by (unfold INT_MAX in *; lia).
    rewrite to_size_t_small by (unfold INT_MAX in *; lia).
    apply to_int_small. unfold INT_MAX in *. lia.
Qed.

(** Consecutive blocks: each one starts where the previous one ends, the
    first at row 0 and the last one ends at row [h]. *)
Lemma fin_es_inicio_siguiente i :
  0 <= i < W - 1 -> fin h W i = inicio h W (i + 1).
Proof.
  intros Hi. rewrite fin_exacto, inicio_exacto by lia.
  destruct (Z.eqb_spec i (W - 1)); [lia | reflexivity].
Qed.

Lemma inicio_le_fin i :
  0 <= i < W -> 0 <= inicio h W i <= fin h W i /\ fin h W i <= h.
Proof.
  intros Hi. rewrite fin_exacto, inicio_exacto by lia.
  pose proof (bloques_dentro i ltac:(lia)).
  destruct (Z.eqb_spec i (W - 1)).
  - lia.
  - pose proof (bloques_dentro (i + 1) ltac:(lia)).
    assert (0 <= h / W) by (apply Z.div_pos; lia).
    nia.
Qed.

End Particion.

(** ** The thresholding phase of the three programs *)

Lemma size_aplicar_rango {A : Type} (g : A -> A) a b (v : list A) :
  size (aplicar_rango g a b v) = size v.
Proof. unfold size. now rewrite aplicar_rango_length. Qed.

(** [2_hilos]: once all the workers are done the whole grid is
    thresholded, for any positive number of workers. *)
Lemma umbralizar_hilos_ok (W : Z) (m : Matriz) (w : nat) (umbral : byte) :
  rectangular w m ->
  size m <= INT_MAX ->
  1 <= W <= INT_MAX ->
  umbralizar_hilos W m umbral = Ok (umbralizar_todo umbral m).
Proof.
  intros Hrect Hh HW. unfold umbralizar_hilos, vector_n.
  destruct (Z.ltb_spec W 0); [lia |]. cbn [ligar].
  assert (Hh' : 0 <= size m <= INT_MAX) by (unfold size in *; lia).
  rewrite to_size_t_small by (unfold INT_MAX in *; lia).
  destruct (Z.eqb_spec W 0) as [? | _]; [lia |].
  set (F := map (umbralizar_con umbral)).
  set (h := size m) in *.
  destruct (para_invariante_0
              (fun k s => s = aplicar_rango F 0
                                (if Z.of_nat k =? W then h else Z.of_nat k * (h / W)) m)
              (fun i m0 => umbralizarMatriz m0 umbral
                             (inicio (size m0) W i) (fin (size m0) W i))
              W m) as [s' [Hs' HI]].
  - lia.
  - cbn [Z.of_nat]. destruct (Z.eqb_spec 0 W); [lia |].
    now rewrite Z.mul_0_l, aplicar_rango_vacio.
  - intros k s Hk ->.
    destruct (Z.eqb_spec (Z.of_nat k) W) as [? | _]; [lia |].
    rewrite size_aplicar_rango. fold h.
    assert (Hi : 0 <= Z.of_nat k < W) by lia.
    pose proof (inicio_le_fin h W Hh' HW _ Hi) as Hord.
    rewrite (umbralizarMatriz_ok umbral _ w).
    + eexists. split; [reflexivity |].
      rewrite (inicio_exacto h W Hh' HW _ Hi).
      fold F. rewrite aplicar_rango_compone.
      * f_equal. rewrite (fin_exacto h W Hh' HW _ Hi).
        destruct (Z.eqb_spec (Z.of_nat k) (W - 1)),
                 (Z.eqb_spec (Z.of_nat (S k)) W); lia.
      * rewrite <- (inicio_exacto h W Hh' HW _ Hi). lia.
    + now apply rectangular_aplicar_rango.
    + lia.
    + rewrite size_aplicar_rango. fold h. lia.
  - rewrite Hs', HI. f_equal.
    destruct (Z.eqb_spec (Z.of_nat (Z.to_nat W)) W); [| lia].
    unfold h, F, umbralizar_todo. apply aplicar_rango_todo.
Qed.

(** [4_openMP]: the double loop thresholds the whole grid. *)
Lemma umbralizar_omp_ok (m : Matriz) (w : nat) (umbral : byte) :
  rectangular w m ->
  umbralizar_omp m umbral = Ok (umbralizar_todo umbral m).
Proof.
  intros Hrect.
  change (umbralizar_omp m umbral) with (umbralizarMatriz m umbral 0 (size m)).
  rewrite (umbralizarMatriz_ok umbral m w) by (auto; unfold size; lia).
  f_equal. apply aplicar_rango_todo.
Qed.


(** Workers on disjoint blocks of rows commute: the grid they leave does
    not depend on the order in which they run. *)
Lemma bloques_conmutan (m : Matriz) (w : nat) (umbral : byte) (a b c e : Z) :
  rectangular w m ->
  0 <= a <= b -> b <= c <= e -> e <= size m ->
  (m1 <- umbralizarMatriz m umbral a b ;; umbralizarMatriz m1 umbral c e)
  = (m1 <- umbralizarMatriz m umbral c e ;; umbralizarMatriz m1 umbral a b).
Proof.
  intros Hrect Hab Hce He.
  rewrite (umbralizarMatriz_ok umbral m w a b) by (auto; lia).
  rewrite (umbralizarMatriz_ok umbral m w c e) by (auto; lia).
  cbn [ligar].
  rewrite (umbralizarMatriz_ok umbral _ w c e)
    by (try apply rectangular_aplicar_rango; try rewrite size_aplicar_rango; auto; lia).
  rewrite (umbralizarMatriz_ok umbral _ w a b)
    by (try apply rectangular_aplicar_rango; try rewrite size_aplicar_rango; auto; lia).
  f_equal. apply nth_error_ext. intros n.
  rewrite !nth_error_aplicar_rango.
  destruct (nth_error m n); cbn [option_map]; [| reflexivity].
  f_equal.
  destruct (Z.leb_spec a (Z.of_nat n)), (Z.ltb_spec (Z.of_nat n) b),
           (Z.leb_spec c (Z.of_nat n)), (Z.ltb_spec (Z.of_nat n) e);
    cbn [andb]; try reflexivity; lia.
Qed.

(** ** Coverage of the partition *)

Lemma rango_cons a b : a < b -> rango a b = a :: rango (a + 1) b.
Proof.
  intros Hab. unfold rango.
  replace (Z.to_nat (b - a)) with (S (Z.to_nat (b - (a + 1)))) by lia.
  cbn [seq map]. f_equal; [lia |].
  rewrite <- seq_shift, map_map. apply map_ext. intros k. lia.
Qed.

Lemma rango_app a b c : a <= b <= c -> rango a b ++ rango b c = rango a c.
Proof.
  intros Habc.
  remember (Z.to_nat (b - a)) as n eqn:Hn.
  revert a Habc Hn. induction n as [| n IH]; intros a Habc Hn.
  - assert (a = b) by lia. subst a. now rewrite (rango_vacio b b) by lia.
  - rewrite (rango_cons a b), (rango_cons a c) by lia.
    cbn [app]. f_equal. apply IH; lia.
Qed.

Lemma particion_concat (h W : Z) :
  0 <= h <= INT_MAX -> 1 <= W <= INT_MAX ->
  concat (map filas_de (particion h W)) = rango 0 h.
Proof.
  intros Hh HW. unfold particion. rewrite map_map.
  assert (Hgen : forall k : nat, Z.of_nat k <= W ->
            concat (map (fun i => filas_de (inicio h W i, fin h W i))
                      (rango 0 (0 + Z.of_nat k)))
            = rango 0 (if Z.of_nat k =? W then h else Z.of_nat k * (h / W))).
  { induction k as [| k IH]; intros Hk.
    - rewrite rango_vacio by lia. cbn [map concat Z.of_nat].
      destruct (Z.eqb_spec 0 W); [lia |]. now rewrite rango_vacio by lia.
    - rewrite rango_snoc, map_app, concat_app, IH by lia.
      destruct (Z.eqb_spec (Z.of_nat k) W); [lia |].
      cbn [map concat]. rewrite app_nil_r. unfold filas_de. cbn [fst snd].
      assert (Hi : 0 <= Z.of_nat k < W) by lia.
      pose proof (inicio_le_fin h W Hh HW _ Hi) as Hord.
      rewrite Z.add_0_l.
      rewrite (inicio_exacto h W Hh HW _ Hi) in *.
      rewrite rango_app by lia.
      rewrite (fin_exacto h W Hh HW _ Hi).
      destruct (Z.eqb_spec (Z.of_nat k) (W - 1)),
               (Z.eqb_spec (Z.of_nat (S k)) W); try lia; try reflexivity.
      f_equal. lia. }
  specialize (Hgen (Z.to_nat W) ltac:(lia)).
  replace (0 + Z.of_nat (Z.to_nat W)) with W in Hgen by lia.
  rewrite Hgen. destruct (Z.eqb_spec (Z.of_nat (Z.to_nat W)) W); [reflexivity | lia].
Qed.

(** C3. For every height [h] and worker count [W] with 1 <= W <= h (both
    [int] values), worker [i < W-1] gets the rows
    [[i*blockSize, (i+1)*blockSize)] with [blockSize = h / W], the last
    worker gets [[(W-1)*blockSize, h)], and these ranges cover every row of
    [[0, h)] exactly once: every row lies in the range of exactly one
    worker, no range leaves [[0, h)], and the rows visited by the workers,
    taken in worker order, are 0, 1, ..., h-1. *)
Theorem particion_cubre (h W : Z) :
  1 <= W <= h -> h <= INT_MAX ->
  (forall i, 0 <= i < W ->
     inicio h W i = i * (h / W)
     /\ fin h W i = if i =? W - 1 then h else (i + 1) * (h / W))
  /\ (forall r, 0 <= r < h ->
        exists i, (0 <= i < W /\ inicio h W i <= r < fin h W i)
                  /\ forall i', 0 <= i' < W /\ inicio h W i' <= r < fin h W i' ->
                                i' = i)
  /\ (forall i r, 0 <= i < W -> inicio h W i <= r < fin h W i -> 0 <= r < h)
  /\ concat (map filas_de (particion h W)) = rango 0 h.
Proof.
  intros HWh HhM.
  assert (Hh : 0 <= h <= INT_MAX) by lia.
  assert (HW : 1 <= W <= INT_MAX) by lia.
  assert (Hbs : 1 <= h / W) by (apply Z.div_le_lower_bound; lia).
  assert (Hforma : forall i, 0 <= i < W ->
            inicio h W i = i * (h / W)
            /\ fin h W i = if i =? W - 1 then h else (i + 1) * (h / W)).
  { intros i Hi. split; [now apply inicio_exacto | now apply fin_exacto]. }
  split; [exact Hforma |]. split; [| split].
  - intros r Hr.
    pose proof (Z.div_mod r (h / W) ltac:(lia)) as Hdm.
    pose proof (Z.mod_pos_bound r (h / W) ltac:(lia)) as Hmod.
    pose proof (bloques_dentro h W Hh HW (W - 1) ltac:(lia)) as Hult.
    assert (Hq : 0 <= r / (h / W)) by (apply Z.div_pos; lia).
    exists (Z.min (r / (h / W)) (W - 1)). split.
    + split; [lia |].
      destruct (Hforma (Z.min (r / (h / W)) (W - 1)) ltac:(lia)) as [-> ->].
      destruct (Z.eqb_spec (Z.min (r / (h / W)) (W - 1)) (W - 1)) as [He | Hne].
      * rewrite He. nia.
      * assert (Z.min (r / (h / W)) (W - 1) = r / (h / W)) as -> by lia. nia.
    + intros i' [Hi' Hin].
      destruct (Hforma i' Hi') as [Ha Hb]. rewrite Ha, Hb in Hin.
      destruct (Z.eqb_spec i' (W - 1)) as [-> | Hne'].
      * assert (W - 1 <= r / (h / W)) by (apply Z.div_le_lower_bound; lia). lia.
      * assert (i' = r / (h / W)) as -> by nia. lia.
  - intros i r Hi Hin.
    pose proof (inicio_le_fin h W Hh HW i Hi). lia.
  - now apply particion_concat.
Qed.

Lemma particion_cubre_witness :
  concat (map filas_de (particion 10 3)) = rango 0 10.
Proof.
  pose proof (particion_cubre 10 3 ltac:(lia) ltac:(unfold INT_MAX; lia)) as H.
  exact (proj2 (proj2 (proj2 H))).
Defined.

(** ** The writer *)

Lemma firstn_succ_nth_error {A : Type} (v : list A) k x :
  nth_error v k = Some x -> firstn (S k) v = firstn k v ++ [x].
Proof.
  revert k. induction v as [| y v IH]; intros [| k] Hx; cbn in *;
    try discriminate.
  - congruence.
  - f_equal. auto.
Qed.

Lemma bytes_de_matriz_app (m1 m2 : Matriz) :
  bytes_de_matriz (m1 ++ m2) = bytes_de_matriz m1 ++ bytes_de_matriz m2.
Proof. unfold bytes_de_matriz. now rewrite map_app, concat_app. Qed.

Lemma escribir_fila_ok (m : Matriz) (i : nat) (fila : list Pixel) salida :
  nth_error m i = Some fila ->
  escribir_fila m (size fila) (Z.of_nat i) salida = Ok (salida ++ bytes_de_fila fila).
Proof.
  intros Hfila. unfold escribir_fila.
  destruct (para_invariante_0
              (fun j s => s = salida ++ concat (map bytes_de_pixel (firstn j fila)))
              (fun j s => escribir_pixel m (Z.of_nat i) j s)
              (size fila) salida) as [s1 [Hs1 HI1]].
  - unfold size. lia.
  - cbn. now rewrite app_nil_r.
  - intros j s Hj ->. unfold size in Hj. rewrite Nat2Z.id in Hj.
    destruct (nth_error fila j) as [px |] eqn:Hpx.
    2:{ apply nth_error_None in Hpx. lia. }
    unfold escribir_pixel.
    rewrite (indice_ok m i fila Hfila). cbn [ligar].
    rewrite (indice_ok fila j px Hpx). cbn [ligar].
    eexists. split; [reflexivity |].
    rewrite (firstn_succ_nth_error fila j px Hpx).
    rewrite map_app, concat_app. cbn [map concat]. rewrite app_nil_r.
    unfold write. now rewrite app_assoc.
  - rewrite Hs1. cbn [ligar].
    unfold size in HI1. rewrite Nat2Z.id, firstn_all in HI1. subst s1.
    assert (Hpad : 0 <= size fila mod 4) by (apply Z.mod_pos_bound; lia).
    destruct (para_invariante_0
                (fun p s => s = (salida ++ concat (map bytes_de_pixel fila))
                                ++ repeat Byte.x00 p)
                (fun (_ : Z) s => Ok (write [Byte.x00] s))
                (size fila mod 4)
                (salida ++ concat (map bytes_de_pixel fila))) as [s2 [Hs2 HI2]].
    + exact Hpad.
    + cbn. now rewrite app_nil_r.
    + intros p s _ ->. eexists. split; [reflexivity |].
      unfold write. rewrite <- app_assoc. f_equal.
      change [Byte.x00] with (repeat Byte.x00 1).
      rewrite <- repeat_app. f_equal. lia.
    + rewrite Hs2, HI2. unfold bytes_de_fila. now rewrite app_assoc.
Qed.

Lemma guardarMatrizEnBMP_ok (m : Matriz) (w : nat) :
  m <> [] ->
  rectangular w m ->
  guardarMatrizEnBMP true m
  = Ok (bytes_de_header (header_de_matriz (size m) (Z.of_nat w))
        ++ bytes_de_matriz m).
Proof.
  intros Hne Hrect. unfold guardarMatrizEnBMP. cbn [negb].
  destruct m as [| fila0 m']; [congruence |].
  change (indice (fila0 :: m') 0) with (Ok fila0). cbn [ligar].
  set (M := fila0 :: m') in *.
  assert (Hw0 : size fila0 = Z.of_nat w).
  { unfold size. f_equal. apply (rectangular_nth w M 0%nat); auto. }
  rewrite Hw0.
  set (cab := bytes_de_header (header_de_matriz (size M) (Z.of_nat w))).
  destruct (para_invariante_0
              (fun k s => s = cab ++ bytes_de_matriz (firstn k M))
              (fun i s => escribir_fila M (Z.of_nat w) i s)
              (size M) (write cab [])) as [s' [Hs' HI]].
  - unfold size. lia.
  - unfold write. cbn. now rewrite app_nil_r.
  - intros k s Hk ->. unfold size in Hk. rewrite Nat2Z.id in Hk.
    destruct (nth_error M k) as [fila |] eqn:Hfila.
    2:{ apply nth_error_None in Hfila. lia. }
    assert (Hw : size fila = Z.of_nat w).
    { unfold size. f_equal. eapply rectangular_nth; eauto. }
    rewrite <- Hw, (escribir_fila_ok M k fila _ Hfila).
    eexists. split; [reflexivity |].
    rewrite (firstn_succ_nth_error M k fila Hfila), bytes_de_matriz_app.
    unfold bytes_de_matriz at 3. cbn [map concat]. rewrite app_nil_r.
    now rewrite app_assoc.
  - rewrite Hs', HI. unfold size. now rewrite Nat2Z.id, firstn_all.
Qed.

(** C10. The writer reads row 0 of the grid before anything else, so it
    needs a non-empty grid: when the grid has at least one row and all
    rows have the same length, every row and pixel index the writer uses
    is in range and the whole call returns normally; on an empty grid the
    access to row 0 is out of range. *)
Theorem guardarMatrizEnBMP_indices (m : Matriz) (w : nat) :
  (m <> [] -> rectangular w m ->
     (exists fila0, indice m 0 = Ok fila0 /\ size fila0 = Z.of_nat w)
     /\ (forall i j salida,
           In i (rango 0 (size m)) -> In j (rango 0 (Z.of_nat w)) ->
           exists fila px,
             indice m i = Ok fila /\ indice fila j = Ok px
             /\ escribir_pixel m i j salida = Ok (write (bytes_de_pixel px) salida))
     /\ exists bytes, guardarMatrizEnBMP true m = Ok bytes)
  /\ indice (@nil (list Pixel)) 0 = Indefinido
  /\ guardarMatrizEnBMP true [] = Indefinido.
Proof.
  split; [| split; reflexivity].
  intros Hne Hrect. split; [| split].
  - destruct m as [| fila0 m']; [congruence |].
    exists fila0. split; [reflexivity |].
    unfold size. f_equal. apply (rectangular_nth w (fila0 :: m') 0%nat); auto.
  - intros i j salida Hi Hj.
    apply In_rango in Hi. apply In_rango in Hj. unfold size in Hi.
    destruct (nth_error m (Z.to_nat i)) as [fila |] eqn:Hfila.
    2:{ apply nth_error_None in Hfila. lia. }
    assert (Hw : length fila = w) by (eapply rectangular_nth; eauto).
    destruct (nth_error fila (Z.to_nat j)) as [px |] eqn:Hpx.
    2:{ apply nth_error_None in Hpx. lia. }
    exists fila, px.
    assert (Hif : indice m i = Ok fila).
    { rewrite <- (Z2Nat.id i) by lia. now apply indice_ok. }
    assert (Hjp : indice fila j = Ok px).
    { rewrite <- (Z2Nat.id j) by lia. now apply indice_ok. }
    unfold escribir_pixel. rewrite Hif. cbn [ligar]. rewrite Hjp. auto.
  - eexists. now apply guardarMatrizEnBMP_ok with (w := w).
Qed.

Lemma guardarMatrizEnBMP_indices_witness :
  exists bytes,
    guardarMatrizEnBMP true [[negro; blanco]; [blanco; negro]] = Ok bytes.
Proof.
  apply (guardarMatrizEnBMP_indices [[negro; blanco]; [blanco; negro]] 2).
  - discriminate.
  - repeat constructor.
Defined.

(** ** The reader on an arbitrary file *)

Lemma rectangular_poner_nat (w : nat) (m : Matriz) k fila :
  rectangular w m -> length fila = w -> rectangular w (poner_nat m k fila).
Proof.
  intros Hrect Hlen. unfold rectangular. apply Forall_forall.
  intros fila' Hin. apply In_nth_error in Hin. destruct Hin as [n Hn].
  rewrite nth_error_poner_nat in Hn.
  destruct (Nat.eqb n k).
  - destruct (nth_error m n); [| discriminate]. congruence.
  - eapply rectangular_nth; eassumption.
Qed.

Lemma rectangular_repeat (w h : nat) (fila : list Pixel) :
  length fila = w -> rectangular w (repeat fila h).
Proof.
  intros Hlen. unfold rectangular. apply Forall_forall.
  intros fila' Hin. apply repeat_spec in Hin. now subst.
Qed.

Lemma read_vacio archivo n s :
  failbit s = true \/ (length archivo <= pos s)%nat ->
  read archivo n s = ([], if failbit s then s else mkIfstream (pos s) (0 <? n)%nat).
Proof.
  intros Hs. unfold read. destruct (failbit s) eqn:Hf; [reflexivity |].
  destruct Hs as [? | Hpos]; [discriminate |].
  rewrite skipn_all2 by assumption. rewrite firstn_nil. cbn [length].
  now rewrite Nat.add_0_r.
Qed.

Lemma read_bueno archivo n s bs s' :
  read archivo n s = (bs, s') -> failbit s = false ->
  bs = firstn n (skipn (pos s) archivo)
  /\ (length bs <= n)%nat
  /\ pos s' = (pos s + length bs)%nat
  /\ failbit s' = (length bs <? n)%nat.
Proof.
  unfold read. intros Hread Hf. rewrite Hf in Hread.
  injection Hread as <- <-. cbn [pos failbit].
  repeat split; auto. apply firstn_le_length.
Qed.

Lemma read_fallido archivo n s :
  failbit s = true -> read archivo n s = ([], s).
Proof. unfold read. now intros ->. Qed.

Lemma pixel_sin_bytes px :
  pixel_de_bytes (sobrescribir [] (bytes_de_pixel px)) = px.
Proof. now destruct px. Qed.

Section Lector.

Variable archivo : list byte.
Variable d : Z.
Variables w h : nat.

Lemma leer_pixel_inv (k j : nat) st :
  inv_lector archivo d w h k j st -> (k < h)%nat -> (j < w)%nat ->
  exists st', leer_pixel archivo (Z.of_nat k) (Z.of_nat j) st = Ok st'
              /\ inv_lector archivo d w h k (S j) st'.
Proof.
  intros (Hlen & Hrect & Hs & Hpx) Hk Hj.
  destruct st as [M s]. cbn [fst snd] in *.
  destruct (nth_error M k) as [fila |] eqn:Hfila.
  2:{ apply nth_error_None in Hfila. lia. }
  assert (Hw : length fila = w) by (eapply rectangular_nth; eauto).
  destruct (nth_error fila j) as [viejo |] eqn:Hviejo.
  2:{ apply nth_error_None in Hviejo. lia. }
  assert (Hnegro : viejo = negro).
  { apply (Hpx k j fila viejo Hfila Hviejo). right. left. split; [reflexivity | lia]. }
  unfold leer_pixel. cbn [fst snd].
  rewrite (indice_ok M k fila Hfila). cbn [ligar].
  rewrite (indice_ok fila j viejo Hviejo). cbn [ligar].
  destruct (read archivo (Z.to_nat sizeof_Pixel) s) as [bs s'] eqn:Hread.
  eexists. split; [reflexivity |].
  rewrite !poner_of_nat.
  assert (Hbs : failbit s = true \/ (length archivo <= pos s)%nat -> bs = []).
  { intros Hcaso. rewrite (read_vacio _ _ _ Hcaso) in Hread. congruence. }
  assert (Hs' : failbit s' = true \/ Z.of_nat (pos s') = desplazamiento_nat d w k (S j)).
  { destruct (failbit s) eqn:Hf.
    - left. rewrite read_fallido in Hread by assumption.
      injection Hread as _ <-. exact Hf.
    - destruct Hs as [? | Hpos]; [discriminate |].
      destruct (read_bueno _ _ _ _ _ Hread Hf) as (_ & Hle & Hp & Hfb).
      rewrite Hfb, Hp.
      destruct (Nat.ltb_spec (length bs) (Z.to_nat sizeof_Pixel)) as [Hlt | Hge].
      + left. reflexivity.
      + right. unfold sizeof_Pixel in *. unfold desplazamiento_nat in *. lia. }
  unfold inv_lector. cbn [fst snd].
  split; [now rewrite poner_nat_length |].
  split; [apply rectangular_poner_nat; [assumption | now rewrite poner_nat_length] |].
  split; [exact Hs' |].
  intros i' j' fila' px Hi' Hj' Hcond.
  rewrite nth_error_poner_nat in Hi'.
  destruct (Nat.eqb_spec i' k) as [-> | Hik].
  - rewrite Hfila in Hi'. injection Hi' as <-.
    rewrite nth_error_poner_nat in Hj'.
    destruct (Nat.eqb_spec j' j) as [-> | Hjj].
    + rewrite Hviejo in Hj'. injection Hj' as <-.
      assert (Hfin : Z.of_nat (length archivo) <= desplazamiento_nat d w k j) by lia.
      rewrite Hbs.
      * rewrite pixel_sin_bytes. exact Hnegro.
      * destruct Hs as [Hf | Hpos]; [now left | right; lia].
    + apply (Hpx k j' fila px Hfila Hj'). lia.
  - apply (Hpx i' j' fila' px Hi' Hj'). lia.
Qed.

Lemma leer_fila_inv (k : nat) st :
  inv_lector archivo d w h k 0 st -> (k < h)%nat ->
  exists st', leer_fila archivo (Z.of_nat w) (Z.of_nat k) st = Ok st'
              /\ inv_lector archivo d w h (S k) 0 st'.
Proof.
  intros Hinv Hk. unfold leer_fila.
  destruct (para_invariante_0 (fun j st0 => inv_lector archivo d w h k j st0)
              (fun j st0 => leer_pixel archivo (Z.of_nat k) j st0)
              (Z.of_nat w) st) as [st1 [Hst1 HI]].
  - lia.
  - exact Hinv.
  - intros j st0 Hj Hst0. apply leer_pixel_inv; [assumption | assumption | lia].
  - rewrite Hst1. cbn [ligar]. eexists. split; [reflexivity |].
    rewrite Nat2Z.id in HI.
    destruct HI as (Hlen & Hrect & Hs & Hpx). unfold inv_lector. cbn [fst snd].
    split; [assumption |]. split; [assumption |]. split.
    + unfold seekg_cur, seekg. destruct (failbit (snd st1)) eqn:Hf; [now left |].
      destruct Hs as [? | Hpos]; [discriminate |].
      assert (Hrem : Z.rem (Z.of_nat w) 4 = Z.of_nat w mod 4)
        by (apply Z.rem_mod_nonneg; lia).
      pose proof (Z.mod_pos_bound (Z.of_nat w) 4 ltac:(lia)) as Hmod.
      rewrite Hrem.
      destruct (Z.ltb_spec (Z.of_nat (pos (snd st1)) + Z.of_nat w mod 4) 0);
        [now left | right].
      cbn [pos]. unfold desplazamiento_nat in *. lia.
    + intros i' j' fila px Hi' Hj' Hcond.
      apply (Hpx i' j' fila px Hi' Hj').
      assert (length fila = w) by (eapply rectangular_nth; eauto).
      assert (j' < length fila)%nat by (apply nth_error_Some; congruence).
      lia.
Qed.

Lemma leer_filas_inv st :
  inv_lector archivo d w h 0 0 st ->
  exists st', para (rango 0 (Z.of_nat h))
                (fun i st0 => leer_fila archivo (Z.of_nat w) i st0) st = Ok st'
              /\ inv_lector archivo d w h h 0 st'.
Proof.
  intros Hinv.
  destruct (para_invariante_0 (fun k st0 => inv_lector archivo d w h k 0 st0)
              (fun i st0 => leer_fila archivo (Z.of_nat w) i st0)
              (Z.of_nat h) st) as [st1 [Hst1 HI]].
  - lia.
  - exact Hinv.
  - intros k st0 Hk Hst0. apply leer_fila_inv; [assumption | lia].
  - exists st1. rewrite Nat2Z.id in HI. auto.
Qed.

End Lector.

Lemma leerArchivoBMP_abierto basura contenido :
  leerArchivoBMP basura (Some contenido)
  = let header := header_leido basura contenido in
    if negb (bitsPerPixel header =? 24) then Salida 1
    else
      fila <- vector_n (width header) negro ;;
      matriz <- vector_n (height header) fila ;;
      st <- para (rango 0 (height header))
              (fun i st => leer_fila contenido (width header) i st)
              (matriz,
               seekg_beg (dataOffset header)
                 (snd (read contenido (Z.to_nat sizeof_BMPHeader)
                         (mkIfstream 0 false)))) ;;
      Ok (fst st).
Proof.
  unfold leerArchivoBMP, header_leido.
  destruct (read contenido (Z.to_nat sizeof_BMPHeader) (mkIfstream 0 false)).
  reflexivity.
Qed.

Lemma inv_lector_inicial (archivo : list byte) (d : Z) (w h : nat) (s : ifstream) :
  inv_lector archivo d w h 0 0 (repeat (repeat negro w) h, seekg_beg d s).
Proof.
  unfold inv_lector. cbn [fst snd].
  split; [apply repeat_length |].
  split; [apply rectangular_repeat, repeat_length |].
  split.
  - unfold seekg_beg, seekg. destruct (failbit s) eqn:Hf; [now left |].
    destruct (Z.ltb_spec d 0); [now left | right].
    cbn [pos]. unfold desplazamiento_nat. lia.
  - intros i' j' fila px Hi' Hj' _.
    apply nth_error_In, repeat_spec in Hi'. subst fila.
    apply nth_error_In, repeat_spec in Hj'. exact Hj'.
Qed.

(** With 24 bits per pixel and non-negative dimensions the reader always
    returns a grid of the declared dimensions, whatever the length of the
    file. *)
Lemma leerArchivoBMP_devuelve basura contenido :
  let header := header_leido basura contenido in
  bitsPerPixel header = 24 ->
  0 <= width header -> 0 <= height header ->
  exists M,
    leerArchivoBMP basura (Some contenido) = Ok M
    /\ size M = height header
    /\ rectangular (Z.to_nat (width header)) M
    /\ forall i j fila px,
         nth_error M i = Some fila -> nth_error fila j = Some px ->
         Z.of_nat (length contenido)
         <= desplazamiento header (Z.of_nat i) (Z.of_nat j) ->
         px = negro.
Proof.
  intros header Hbpp Hw Hh.
  rewrite leerArchivoBMP_abierto. fold header. cbv zeta.
  rewrite Hbpp. cbn [Z.eqb Pos.eqb negb].
  unfold vector_n.
  destruct (Z.ltb_spec (width header) 0); [lia |].
  destruct (Z.ltb_spec (height header) 0); [lia |].
  cbn [ligar].
  set (w := Z.to_nat (width header)). set (h := Z.to_nat (height header)).
  replace (width header) with (Z.of_nat w) by (unfold w; lia).
  replace (height header) with (Z.of_nat h) by (unfold h; lia).
  set (s1 := snd (read contenido (Z.to_nat sizeof_BMPHeader) (mkIfstream 0 false))).
  destruct (leer_filas_inv contenido (dataOffset header) w h _
              (inv_lector_inicial contenido (dataOffset header) w h s1))
    as [st' [Hst' (Hlen & Hrect & _ & Hpx)]].
  rewrite Hst'. cbn [ligar]. exists (fst st').
  split; [reflexivity |]. split; [unfold size; lia |]. split; [assumption |].
  intros i j fila px Hi Hj Hfin.
  apply (Hpx i j fila px Hi Hj). right. right.
  unfold desplazamiento in Hfin.
  rewrite Z.rem_mod_nonneg in Hfin by lia.
  unfold desplazamiento_nat.
  replace (Z.of_nat w) with (width header) by (unfold w; lia). exact Hfin.
Qed.

Lemma leerArchivoBMP_dimension_negativa basura contenido :
  let header := header_leido basura contenido in
  bitsPerPixel header = 24 ->
  width header < 0 \/ height header < 0 ->
  leerArchivoBMP basura (Some contenido) = Excepcion.
Proof.
  intros header Hbpp Hneg.
  rewrite leerArchivoBMP_abierto. fold header. cbv zeta.
  rewrite Hbpp. cbn [Z.eqb Pos.eqb negb].
  unfold vector_n.
  destruct (Z.ltb_spec (width header) 0); [reflexivity |].
  destruct (Z.ltb_spec (height header) 0); [reflexivity | lia].
Qed.

(** C7, as stated, fails: a file that opens and declares 24 bits per pixel
    but a negative width is a malformation that yields no pixel content;
    the reader stops on the exception thrown by the allocation of the
    grid. *)
Lemma leerArchivoBMP_ancho_negativo :
  bitsPerPixel (header_leido [] archivo_ancho_negativo) = 24
  /\ width (header_leido [] archivo_ancho_negativo) = -1
  /\ leerArchivoBMP [] (Some archivo_ancho_negativo) = Excepcion
  /\ ~ (exists M, leerArchivoBMP [] (Some archivo_ancho_negativo) = Ok M).
Proof.
  assert (He : leerArchivoBMP [] (Some archivo_ancho_negativo) = Excepcion)
    by (vm_compute; reflexivity).
  repeat split; try (vm_compute; reflexivity).
  intros [M HM]. rewrite He in HM. discriminate.
Qed.

(** C7 (amended). The reader terminates the process with exit code 1
    exactly when the file cannot be opened or the bits-per-pixel field of
    the header is not 24. When the file opens with 24 bits per pixel, a
    negative width or height stops the reader on an uncaught exception;
    with non-negative dimensions no other malformation is detected: the
    reader returns a grid of the declared height and width in which every
    pixel expected at or beyond the end of the file (truncated data) is
    zero. *)
Theorem leerArchivoBMP_fallos (basura : list byte) (entrada : option (list byte)) :
  (leerArchivoBMP basura entrada = Salida 1
   <-> entrada = None
       \/ exists c, entrada = Some c /\ bitsPerPixel (header_leido basura c) <> 24)
  /\ forall c, entrada = Some c ->
       bitsPerPixel (header_leido basura c) = 24 ->
       (width (header_leido basura c) < 0 \/ height (header_leido basura c) < 0 ->
        leerArchivoBMP basura entrada = Excepcion)
       /\ (0 <= width (header_leido basura c) ->
           0 <= height (header_leido basura c) ->
           exists M,
             leerArchivoBMP basura entrada = Ok M
             /\ size M = height (header_leido basura c)
             /\ rectangular (Z.to_nat (width (header_leido basura c))) M
             /\ forall i j fila px,
                  nth_error M i = Some fila -> nth_error fila j = Some px ->
                  Z.of_nat (length c)
                  <= desplazamiento (header_leido basura c) (Z.of_nat i) (Z.of_nat j) ->
                  px = negro).
Proof.
  split.
  - destruct entrada as [c |].
    2:{ cbn [leerArchivoBMP]. split; auto. }
    split.
    + intros Hsal. right. exists c. split; [reflexivity |].
      intros Hbpp.
      destruct (Z_lt_le_dec (width (header_leido basura c)) 0) as [Hw | Hw].
      * rewrite (leerArchivoBMP_dimension_negativa basura c Hbpp) in Hsal by auto.
        discriminate.
      * destruct (Z_lt_le_dec (height (header_leido basura c)) 0) as [Hh | Hh].
        -- rewrite (leerArchivoBMP_dimension_negativa basura c Hbpp) in Hsal by auto.
           discriminate.
        -- destruct (leerArchivoBMP_devuelve basura c Hbpp Hw Hh) as [M [HM _]].
           rewrite HM in Hsal. discriminate.
    + intros [Hnone | [c' [Hc' Hbpp]]]; [discriminate |].
      injection Hc' as <-.
      rewrite leerArchivoBMP_abierto. cbv zeta.
      destruct (Z.eqb_spec (bitsPerPixel (header_leido basura c)) 24); [contradiction |].
      reflexivity.
  - intros c -> Hbpp. split.
    + now apply leerArchivoBMP_dimension_negativa.
    + now apply leerArchivoBMP_devuelve.
Qed.

(** ** Reading back what the writer wrote *)

Lemma length_bytes_de_pixeles (fila : list Pixel) :
  length (concat (map bytes_de_pixel fila)) = (3 * length fila)%nat.
Proof.
  induction fila as [| px fila IH]; cbn [map concat]; [reflexivity |].
  rewrite length_app, IH. cbn [bytes_de_pixel length]. lia.
Qed.

Lemma length_bytes_de_fila (fila : list Pixel) :
  length (bytes_de_fila fila)
  = (3 * length fila + Z.to_nat (size fila mod 4))%nat.
Proof.
  unfold bytes_de_fila.
  now rewrite length_app, length_bytes_de_pixeles, repeat_length.
Qed.

Lemma skipn_nth_error_cons {A : Type} (v : list A) k x :
  nth_error v k = Some x -> skipn k v = x :: skipn (S k) v.
Proof.
  revert k. induction v as [| y v IH]; intros [| k] Hx; cbn in *;
    try discriminate.
  - congruence.
  - auto.
Qed.

Lemma poner_nat_medio {A : Type} (l1 l2 : list A) k x y :
  length l1 = k -> poner_nat (l1 ++ y :: l2) k x = l1 ++ x :: l2.
Proof.
  intros <-. induction l1 as [| z l1 IH]; cbn; [reflexivity |]. now rewrite IH.
Qed.

Lemma read_exacto archivo (bs post : list byte) s :
  failbit s = false ->
  skipn (pos s) archivo = bs ++ post ->
  read archivo (length bs) s = (bs, mkIfstream (pos s + length bs) false).
Proof.
  intros Hf Hskip. unfold read. rewrite Hf, Hskip.
  rewrite firstn_app, Nat.sub_diag, firstn_all. cbn [firstn].
  rewrite app_nil_r. now rewrite Nat.ltb_irrefl.
Qed.

(** Reading a row whose pixel bytes are present in the file: the pixels
    are stored in the row and the position moves past the pixels and the
    padding. *)
Lemma leer_fila_ok archivo (M : Matriz) (i : nat) (viejo fila : list Pixel)
  (s : ifstream) (post : list byte) :
  nth_error M i = Some viejo ->
  length viejo = length fila ->
  failbit s = false ->
  skipn (pos s) archivo = concat (map bytes_de_pixel fila) ++ post ->
  leer_fila archivo (size fila) (Z.of_nat i) (M, s)
  = Ok (poner_nat M i fila,
        mkIfstream (pos s + 3 * length fila + Z.to_nat (size fila mod 4)) false).
Proof.
  intros HM Hlen Hf Hskip. unfold leer_fila.
  destruct (para_invariante_0
              (fun j st => st = (poner_nat M i (firstn j fila ++ skipn j viejo),
                                 mkIfstream (pos s + 3 * j) false))
              (fun j st => leer_pixel archivo (Z.of_nat i) j st)
              (size fila) (M, s)) as [st1 [Hst1 HI]].
  - unfold size. lia.
  - cbn [firstn skipn app]. rewrite (poner_nat_mismo M i viejo HM).
    destruct s as [p fb]. cbn [pos failbit] in *. subst fb.
    f_equal. f_equal. lia.
  - intros j st Hj ->. unfold size in Hj. rewrite Nat2Z.id in Hj.
    destruct (nth_error fila j) as [px |] eqn:Hpx.
    2:{ apply nth_error_None in Hpx. lia. }
    destruct (nth_error viejo j) as [old |] eqn:Hold.
    2:{ apply nth_error_None in Hold. lia. }
    assert (Hlj : length (firstn j fila) = j) by (apply firstn_length_le; lia).
    unfold leer_pixel. cbn [fst snd].
    rewrite (indice_ok _ i (firstn j fila ++ skipn j viejo))
      by (eapply nth_error_poner_nat_mismo; eassumption).
    cbn [ligar].
    rewrite (indice_ok _ j old).
    2:{ rewrite nth_error_app2 by lia. rewrite Hlj, Nat.sub_diag.
        now rewrite (skipn_nth_error_cons viejo j old Hold). }
    cbn [ligar].
    change (Z.to_nat sizeof_Pixel) with (length (bytes_de_pixel px)).
    rewrite (read_exacto archivo (bytes_de_pixel px)
               (concat (map bytes_de_pixel (skipn (S j) fila)) ++ post)).
    2:{ reflexivity. }
    2:{ cbn [pos].
        rewrite <- (firstn_skipn j fila) in Hskip at 1.
        rewrite map_app, concat_app, <- app_assoc in Hskip.
        rewrite Nat.add_comm, <- skipn_skipn, Hskip.
        rewrite skipn_app, skipn_all2 by (rewrite length_bytes_de_pixeles; lia).
        rewrite length_bytes_de_pixeles, Hlj, Nat.sub_diag.
        cbn [skipn app].
        rewrite (skipn_nth_error_cons fila j px Hpx).
        cbn [map concat]. now rewrite <- app_assoc. }
    eexists. split; [reflexivity |].
    rewrite !poner_of_nat, poner_nat_poner_nat.
    f_equal; [| f_equal; cbn [pos bytes_de_pixel length]; lia].
    f_equal.
    rewrite (skipn_nth_error_cons viejo j old Hold).
    rewrite poner_nat_medio by exact Hlj.
    rewrite (firstn_succ_nth_error fila j px Hpx), <- app_assoc.
    cbn [app]. f_equal. f_equal. now destruct px.
  - rewrite Hst1, HI. cbn [ligar fst snd].
    unfold size. rewrite Nat2Z.id.
    rewrite firstn_all, skipn_all2, app_nil_r by lia.
    f_equal. f_equal.
    unfold seekg_cur, seekg. cbn [failbit pos].
    rewrite Z.rem_mod_nonneg by lia.
    pose proof (Z.mod_pos_bound (Z.of_nat (length fila)) 4 ltac:(lia)).
    destruct (Z.ltb_spec (Z.of_nat (pos s + 3 * length fila)
                          + Z.of_nat (length fila) mod 4) 0); [lia |].
    f_equal. lia.
Qed.

(** ** Decoding the header produced by the writer *)

Lemma to_int_mod z : to_int (z mod 2 ^ 32) = to_int z.
Proof.
  unfold to_int. f_equal.
  rewrite Zplus_mod_idemp_l. reflexivity.
Qed.

Lemma to_short_mod z : to_short (z mod 2 ^ 16) = to_short z.
Proof.
  unfold to_short. f_equal.
  rewrite Zplus_mod_idemp_l. reflexivity.
Qed.

Lemma to_int_to_int z : to_int (to_int z) = to_int z.
Proof.
  apply to_int_small. unfold to_int, INT_MAX.
  pose proof (Z.mod_pos_bound (z + 2 ^ 31) (2 ^ 32) ltac:(lia)). lia.
Qed.

Lemma campo_int_salta (seg resto : list byte) (n desde : nat) :
  length seg = n -> campo_int (seg ++ resto) (n + desde) = campo_int resto desde.
Proof.
  intros <-. unfold campo_int.
  rewrite skipn_app, skipn_all2 by lia.
  replace (length seg + desde - length seg)%nat with desde by lia.
  reflexivity.
Qed.

Lemma campo_short_salta (seg resto : list byte) (n desde : nat) :
  length seg = n -> campo_short (seg ++ resto) (n + desde) = campo_short resto desde.
Proof.
  intros <-. unfold campo_short.
  rewrite skipn_app, skipn_all2 by lia.
  replace (length seg + desde - length seg)%nat with desde by lia.
  reflexivity.
Qed.

Lemma campo_int_cabeza z (resto : list byte) :
  campo_int (le_split 4 z ++ resto) 0 = to_int z.
Proof.
  unfold campo_int. cbn [skipn].
  rewrite firstn_app, length_le_split, Nat.sub_diag.
  rewrite firstn_all2 by (rewrite length_le_split; lia).
  cbn [firstn]. rewrite app_nil_r, le_combine_split.
  apply to_int_mod.
Qed.

Lemma campo_short_cabeza z (resto : list byte) :
  campo_short (le_split 2 z ++ resto) 0 = to_short z.
Proof.
  unfold campo_short. cbn [skipn].
  rewrite firstn_app, length_le_split, Nat.sub_diag.
  rewrite firstn_all2 by (rewrite length_le_split; lia).
  cbn [firstn]. rewrite app_nil_r, le_combine_split.
  apply to_short_mod.
Qed.

Lemma length_bytes_de_header (H : BMPHeader) :
  length (bytes_de_header H) = 54%nat.
Proof.
  unfold bytes_de_header.
  rewrite !length_app, !length_le_split.
  rewrite firstn_length_le; [reflexivity |].
  rewrite length_app. cbn [length]. lia.
Qed.

Ltac saltar_campos :=
  repeat (first [ rewrite campo_int_salta by (first [ apply length_le_split | reflexivity ])
                | rewrite campo_short_salta by (first [ apply length_le_split | reflexivity ]) ]).

Lemma campos_del_header (h w : Z) (extra : list byte) :
  let H := header_de_bytes (bytes_de_header (header_de_matriz h w) ++ extra) in
  bitsPerPixel H = 24
  /\ dataOffset H = 54
  /\ width H = to_int w
  /\ height H = to_int h.
Proof.
  cbv zeta. unfold header_de_bytes, bytes_de_header, header_de_matriz.
  cbn [bitsPerPixel dataOffset width height signature fileSize reserved
       headerSize planes compression dataSize horizontalResolution
       verticalResolution colors importantColors].
  change (firstn 2 ([Byte.x42; Byte.x4d] ++ [Byte.x00; Byte.x00]))
    with [Byte.x42; Byte.x4d].
  rewrite <- !app_assoc.
  split; [| split; [| split]].
  - change 28%nat with (2 + (4 + (4 + (4 + (4 + (4 + (4 + (2 + 0))))))))%nat.
    saltar_campos. rewrite campo_short_cabeza. reflexivity.
  - change 10%nat with (2 + (4 + (4 + 0)))%nat.
    saltar_campos. rewrite campo_int_cabeza. rewrite to_int_to_int. reflexivity.
  - change 18%nat with (2 + (4 + (4 + (4 + (4 + 0)))))%nat.
    saltar_campos. rewrite campo_int_cabeza. apply to_int_to_int.
  - change 22%nat with (2 + (4 + (4 + (4 + (4 + (4 + 0))))))%nat.
    saltar_campos. rewrite campo_int_cabeza. apply to_int_to_int.
Qed.

Lemma leer_filas_ok (cab : list byte) (m : Matriz) (w : nat) :
  rectangular w m ->
  para (rango 0 (size m))
    (fun i st => leer_fila (cab ++ bytes_de_matriz m) (Z.of_nat w) i st)
    (repeat (repeat negro w) (length m), mkIfstream (length cab) false)
  = Ok (m, mkIfstream (length cab + length (bytes_de_matriz m)) false).
Proof.
  intros Hrect.
  set (archivo := cab ++ bytes_de_matriz m).
  destruct (para_invariante_0
              (fun k st =>
                 st = (firstn k m ++ repeat (repeat negro w) (length m - k),
                       mkIfstream (length cab + length (bytes_de_matriz (firstn k m)))
                         false))
              (fun i st => leer_fila archivo (Z.of_nat w) i st)
              (size m)
              (repeat (repeat negro w) (length m), mkIfstream (length cab) false))
    as [st' [Hst' HI]].
  - unfold size. lia.
  - cbn [firstn app]. rewrite Nat.sub_0_r. unfold bytes_de_matriz. cbn [map concat length].
    now rewrite Nat.add_0_r.
  - intros k st Hk ->. unfold size in Hk. rewrite Nat2Z.id in Hk.
    destruct (nth_error m k) as [fila |] eqn:Hfila.
    2:{ apply nth_error_None in Hfila. lia. }
    assert (Hw : length fila = w) by (eapply rectangular_nth; eauto).
    assert (Hlk : length (firstn k m) = k) by (apply firstn_length_le; lia).
    replace (length m - k)%nat with (S (length m - S k)) by lia.
    cbn [repeat].
    replace (Z.of_nat w) with (size fila) by (unfold size; now rewrite Hw).
    rewrite (leer_fila_ok archivo _ k (repeat negro w) fila _
               (repeat Byte.x00 (Z.to_nat (size fila mod 4))
                ++ bytes_de_matriz (skipn (S k) m))).
    + eexists. split; [reflexivity |].
      rewrite poner_nat_medio by exact Hlk.
      rewrite (firstn_succ_nth_error m k fila Hfila), <- app_assoc.
      cbn [app pos]. f_equal. f_equal.
      rewrite bytes_de_matriz_app, length_app.
      unfold bytes_de_matriz at 3. cbn [map concat]. rewrite app_nil_r.
      rewrite length_bytes_de_fila. lia.
    + rewrite nth_error_app2 by lia. now rewrite Hlk, Nat.sub_diag.
    + now rewrite repeat_length.
    + reflexivity.
    + cbn [pos]. unfold archivo.
      rewrite skipn_app, skipn_all2 by lia.
      replace (length cab + length (bytes_de_matriz (firstn k m)) - length cab)%nat
        with (length (bytes_de_matriz (firstn k m))) by lia.
      cbn [app].
      rewrite <- (firstn_skipn k m) at 2.
      rewrite bytes_de_matriz_app, skipn_app, skipn_all, Nat.sub_diag.
      cbn [skipn app].
      rewrite (skipn_nth_error_cons m k fila Hfila).
      unfold bytes_de_matriz at 1. cbn [map concat].
      unfold bytes_de_fila at 1. now rewrite <- app_assoc.
  - rewrite Hst', HI. unfold size.
    rewrite Nat2Z.id, firstn_all, Nat.sub_diag. cbn [repeat].
    now rewrite app_nil_r.
Qed.

(** C4. Round trip: for every non-empty rectangular grid whose height and
    width are [int] values (as the header fields that carry them), the
    writer returns normally and the reader, applied to the bytes the writer
    produced, returns the very grid that was written. *)
Theorem ida_y_vuelta (basura : list byte) (m : Matriz) (w : nat) :
  m <> [] ->
  rectangular w m ->
  Z.of_nat w <= INT_MAX ->
  size m <= INT_MAX ->
  exists bytes,
    guardarMatrizEnBMP true m = Ok bytes
    /\ leerArchivoBMP basura (Some bytes) = Ok m.
Proof.
  intros Hne Hrect Hw Hh.
  set (cab := bytes_de_header (header_de_matriz (size m) (Z.of_nat w))).
  exists (cab ++ bytes_de_matriz m).
  split; [now apply guardarMatrizEnBMP_ok |].
  assert (Hcab : length cab = 54%nat) by apply length_bytes_de_header.
  assert (Hread : read (cab ++ bytes_de_matriz m) (Z.to_nat sizeof_BMPHeader)
                    (mkIfstream 0 false)
                  = (cab, mkIfstream 54 false)).
  { pose proof (read_exacto (cab ++ bytes_de_matriz m) cab (bytes_de_matriz m)
                  (mkIfstream 0 false) eq_refl eq_refl) as Hr.
    rewrite Hcab in Hr. exact Hr. }
  rewrite leerArchivoBMP_abierto. unfold header_leido. rewrite Hread.
  cbn [fst snd]. unfold sobrescribir.
  destruct (campos_del_header (size m) (Z.of_nat w) (skipn (length cab) basura))
    as (Hbpp & Hoff & Hwidth & Hheight).
  fold cab in Hbpp, Hoff, Hwidth, Hheight.
  cbv zeta. rewrite Hbpp, Hoff, Hwidth, Hheight.
  rewrite !to_int_small by (unfold size, INT_MAX in *; lia).
  cbn [Z.eqb Pos.eqb negb].
  unfold vector_n.
  destruct (Z.ltb_spec (Z.of_nat w) 0); [lia |].
  destruct (Z.ltb_spec (size m) 0); [unfold size in *; lia |].
  cbn [ligar]. rewrite Nat2Z.id.
  replace (Z.to_nat (size m)) with (length m) by (unfold size; lia).
  change (seekg_beg 54 (mkIfstream 54 false)) with (mkIfstream 54 false).
  rewrite <- Hcab at 1.
  rewrite (leer_filas_ok cab m w Hrect). reflexivity.
Qed.

Lemma ida_y_vuelta_witness :
  exists bytes,
    guardarMatrizEnBMP true [[negro; blanco; negro]; [blanco; negro; blanco]] = Ok bytes
    /\ leerArchivoBMP [] (Some bytes)
       = Ok [[negro; blanco; negro]; [blanco; negro; blanco]].
Proof.
  apply (ida_y_vuelta [] [[negro; blanco; negro]; [blanco; negro; blanco]] 3).
  - discriminate.
  - repeat constructor.
  - vm_compute. discriminate.
  - vm_compute. discriminate.
Defined.

(** ** Row padding *)

Lemma relleno_estandar_mod (w : Z) : w mod 4 = relleno_estandar w.
Proof. unfold relleno_estandar. Z.div_mod_to_equations. lia. Qed.

(** C6, as stated, fails: the padding amount [w % 4] is not a departure
    from the BMP standard. At width 3 the writer emits 3 zero bytes after
    the 9 pixel bytes, the reader skips 3 bytes, and 3 is also the
    standard amount [(4 - (3*3) % 4) % 4]; no width separates the two
    formulas. *)
Lemma relleno_coincide_con_estandar :
  escribir_fila [tres_pixeles] 3 0 []
  = Ok (concat (map bytes_de_pixel tres_pixeles)
        ++ repeat Byte.x00 (Z.to_nat (relleno_estandar 3)))
  /\ leer_fila (concat (map bytes_de_pixel tres_pixeles)) 3 0
       ([[negro; negro; negro]], mkIfstream 0 false)
     = Ok ([tres_pixeles], mkIfstream (9 + Z.to_nat (relleno_estandar 3)) false)
  /\ relleno_estandar 3 = 3
  /\ ~ (exists w, w mod 4 <> relleno_estandar w).
Proof.
  split; [vm_compute; reflexivity |].
  split; [vm_compute; reflexivity |].
  split; [reflexivity |].
  intros [w Hw]. apply Hw. apply relleno_estandar_mod.
Qed.

(** C6 (amended). For every row of [w] pixels, the writer emits exactly
    [w % 4] zero bytes after the [3*w] pixel bytes of the row, and the
    reader, after storing the [w] pixels of a row, moves the position
    exactly [w % 4] bytes further; this common amount equals the
    BMP-standard padding [(4 - (3*w) % 4) % 4]. *)
Theorem relleno_de_fila (fila : list Pixel) :
  (forall (m : Matriz) (i : nat) (salida : list byte),
     nth_error m i = Some fila ->
     escribir_fila m (size fila) (Z.of_nat i) salida
     = Ok (salida ++ concat (map bytes_de_pixel fila)
           ++ repeat Byte.x00 (Z.to_nat (size fila mod 4))))
  /\ (forall (archivo : list byte) (M : Matriz) (i : nat) (viejo : list Pixel)
             (s : ifstream) (post : list byte),
        nth_error M i = Some viejo ->
        length viejo = length fila ->
        failbit s = false ->
        skipn (pos s) archivo = concat (map bytes_de_pixel fila) ++ post ->
        leer_fila archivo (size fila) (Z.of_nat i) (M, s)
        = Ok (poner_nat M i fila,
              mkIfstream (pos s + 3 * length fila + Z.to_nat (size fila mod 4))
                false))
  /\ size fila mod 4 = relleno_estandar (size fila).
Proof.
  split; [| split].
  - intros m i salida Hfila. now apply escribir_fila_ok.
  - intros. now apply leer_fila_ok with (viejo := viejo) (post := post).
  - apply relleno_estandar_mod.
Qed.

Lemma relleno_de_fila_witness :
  escribir_fila [[negro; blanco]] 2 0 []
  = Ok (concat (map bytes_de_pixel [negro; blanco]) ++ [Byte.x00; Byte.x00]).
Proof.
  exact (proj1 (relleno_de_fila [negro; blanco]) [[negro; blanco]] 0%nat []
           eq_refl).
Defined.

(** ** Truncated input *)

Example leerArchivoBMP_truncado :
  leerArchivoBMP [] (Some archivo_truncado)
  = Ok [[mkPixel Byte.x64 Byte.x65 Byte.x66; mkPixel Byte.x01 Byte.x02 Byte.x03; negro];
        [negro; negro; negro]].
Proof. vm_compute. reflexivity. Qed.

Lemma leerArchivoBMP_fallos_witness :
  exists M, leerArchivoBMP [] (Some archivo_truncado) = Ok M /\ size M = 2.
Proof.
  destruct (leerArchivoBMP_fallos [] (Some archivo_truncado)) as [_ H].
  destruct (H archivo_truncado eq_refl ltac:(vm_compute; reflexivity)) as [_ H2].
  destruct (H2 ltac:(vm_compute; discriminate) ltac:(vm_compute; discriminate))
    as [M [HM [Hs _]]].
  exists M. split; [exact HM | exact Hs].
Defined.

(** ** The three programs compared *)

Lemma to_int_max z : to_int z <= INT_MAX.
Proof.
  unfold to_int, INT_MAX.
  pose proof (Z.mod_pos_bound (z + 2 ^ 31) (2 ^ 32) ltac:(lia)). lia.
Qed.

(** Every grid the reader returns is rectangular and its height is an
    [int]. *)
Lemma leerArchivoBMP_forma basura entrada (M : Matriz) :
  leerArchivoBMP basura entrada = Ok M ->
  exists w, rectangular w M /\ size M <= INT_MAX.
Proof.
  intros HM. destruct entrada as [c |]; [| discriminate].
  destruct (Z.eq_dec (bitsPerPixel (header_leido basura c)) 24) as [Hbpp | Hbpp].
  - destruct (Z_lt_le_dec (width (header_leido basura c)) 0) as [Hw | Hw].
    { rewrite (leerArchivoBMP_dimension_negativa basura c Hbpp) in HM by auto.
      discriminate. }
    destruct (Z_lt_le_dec (height (header_leido basura c)) 0) as [Hh | Hh].
    { rewrite (leerArchivoBMP_dimension_negativa basura c Hbpp) in HM by auto.
      discriminate. }
    destruct (leerArchivoBMP_devuelve basura c Hbpp Hw Hh)
      as [M' (HM' & Hsize & Hrect & _)].
    rewrite HM in HM'. injection HM' as <-.
    exists (Z.to_nat (width (header_leido basura c))).
    split; [assumption |]. rewrite Hsize. apply to_int_max.
  - rewrite leerArchivoBMP_abierto in HM. cbv zeta in HM.
    destruct (Z.eqb_spec (bitsPerPixel (header_leido basura c)) 24);
      [contradiction | discriminate].
Qed.

(** [2_hilos] and [4_openMP] write the image with the kernel applied to
    every pixel. *)
Lemma main_hilos_ok basura W entrada creable umbral :
  1 <= W <= INT_MAX ->
  main_hilos basura W entrada creable umbral
  = (m <- leerArchivoBMP basura entrada ;;
     guardarMatrizEnBMP creable (umbralizar_todo umbral m)).
Proof.
  intros HW. unfold main_hilos.
  destruct (leerArchivoBMP basura entrada) as [M | | |] eqn:HM; try reflexivity.
  destruct (leerArchivoBMP_forma _ _ _ HM) as [w [Hrect Hsize]].
  cbn [ligar]. now rewrite (umbralizar_hilos_ok W M w umbral Hrect Hsize HW).
Qed.

Lemma main_omp_ok basura entrada creable umbral :
  main_omp basura entrada creable umbral
  = (m <- leerArchivoBMP basura entrada ;;
     guardarMatrizEnBMP creable (umbralizar_todo umbral m)).
Proof.
  unfold main_omp.
  destruct (leerArchivoBMP basura entrada) as [M | | |] eqn:HM; try reflexivity.
  destruct (leerArchivoBMP_forma _ _ _ HM) as [w [Hrect _]].
  cbn [ligar]. now rewrite (umbralizar_omp_ok M w umbral Hrect).
Qed.


Example archivo_2x1_es_gris :
  guardarMatrizEnBMP true [[gris]; [gris]] = Ok archivo_2x1
  /\ leerArchivoBMP [] (Some archivo_2x1) = Ok [[gris]; [gris]].
Proof. split; vm_compute; reflexivity. Qed.

(** The end-to-end scenario of a 2 x 2 mid-grey image: white at threshold
    128, black at threshold 129. *)
Example gris_medio_2x2 :
  let g := mkPixel Byte.x80 Byte.x80 Byte.x80 in
  (entrada <- guardarMatrizEnBMP true [[g; g]; [g; g]] ;;
   main_hilos [] 2 (Some entrada) true Byte.x80)
  = guardarMatrizEnBMP true [[blanco; blanco]; [blanco; blanco]]
  /\ (entrada <- guardarMatrizEnBMP true [[g; g]; [g; g]] ;;
      main_omp [] (Some entrada) true Byte.x81)
     = guardarMatrizEnBMP true [[negro; negro]; [negro; negro]].
Proof. split; vm_compute; reflexivity. Qed.

(** C5. On the 1 x 2 grey image with threshold 50 and two workers, the
    thread and OpenMP programs write the image with the kernel applied to
    both pixels, whereas each child of the process program writes an image
    in which only the pixel of its own row is thresholded: whichever child
    finishes last, the output differs from that of the other two
    programs. *)
Theorem variantes_difieren :
  main_hilos [] 2 (Some archivo_2x1) true Byte.x32
  = guardarMatrizEnBMP true [[blanco]; [blanco]]
  /\ main_omp [] (Some archivo_2x1) true Byte.x32
     = guardarMatrizEnBMP true [[blanco]; [blanco]]
  /\ main_procesos [] 2 0 (Some archivo_2x1) true Byte.x32
     = guardarMatrizEnBMP true [[blanco]; [gris]]
  /\ main_procesos [] 2 1 (Some archivo_2x1) true Byte.x32
     = guardarMatrizEnBMP true [[gris]; [blanco]]
  /\ main_procesos [] 2 0 (Some archivo_2x1) true Byte.x32
     <> main_hilos [] 2 (Some archivo_2x1) true Byte.x32
  /\ main_procesos [] 2 1 (Some archivo_2x1) true Byte.x32
     <> main_hilos [] 2 (Some archivo_2x1) true Byte.x32.
Proof.
  split; [vm_compute; reflexivity |].
  split; [vm_compute; reflexivity |].
  split; [vm_compute; reflexivity |].
  split; [vm_compute; reflexivity |].
  split; vm_compute; discriminate.
Qed.

(** * Further properties of the code *)

(** ** The kernel *)

Lemma byte_de_255 (b : byte) : byte.unsigned b = 255 -> b = Byte.xff.
Proof. intros Hb. apply byte.unsigned_inj. rewrite Hb. reflexivity. Qed.

(** X1. The kernel is monotone: a pixel that is white at some threshold is
    white at every lower threshold, and at a given threshold a pixel whose
    channel sum is at least that of a white pixel is white too. *)
Theorem umbralizar_monotono (p q : Pixel) (t u : byte) :
  (byte.unsigned t <= byte.unsigned u ->
   umbralizar p u = blanco -> umbralizar p t = blanco)
  /\ (byte.unsigned (red p) + byte.unsigned (green p) + byte.unsigned (blue p)
      <= byte.unsigned (red q) + byte.unsigned (green q) + byte.unsigned (blue q) ->
      umbralizar p t = blanco -> umbralizar q t = blanco).
Proof.
  split.
  - intros Htu. rewrite !umbralizar_casos.
    destruct (Z.leb_spec (byte.unsigned u)
                ((byte.unsigned (red p) + byte.unsigned (green p)
                  + byte.unsigned (blue p)) / 3)); [| discriminate].
    intros _.
    destruct (Z.leb_spec (byte.unsigned t)
                ((byte.unsigned (red p) + byte.unsigned (green p)
                  + byte.unsigned (blue p)) / 3)); [reflexivity | lia].
  - intros Hpq. rewrite !umbralizar_casos.
    destruct (Z.leb_spec (byte.unsigned t)
                ((byte.unsigned (red p) + byte.unsigned (green p)
                  + byte.unsigned (blue p)) / 3)); [| discriminate].
    intros _.
    assert ((byte.unsigned (red p) + byte.unsigned (green p)
             + byte.unsigned (blue p)) / 3
            <= (byte.unsigned (red q) + byte.unsigned (green q)
                + byte.unsigned (blue q)) / 3)
      by (apply Z.div_le_mono; lia).
    destruct (Z.leb_spec (byte.unsigned t)
                ((byte.unsigned (red q) + byte.unsigned (green q)
                  + byte.unsigned (blue q)) / 3)); [reflexivity | lia].
Qed.

Lemma umbralizar_monotono_witness :
  umbralizar gris Byte.x10 = blanco /\ umbralizar blanco Byte.x20 = blanco.
Proof.
  split.
  - apply (proj1 (umbralizar_monotono gris gris Byte.x10 Byte.x20));
      [vm_compute; discriminate | reflexivity].
  - apply (proj2 (umbralizar_monotono gris blanco Byte.x20 Byte.x20));
      [vm_compute; discriminate | reflexivity].
Defined.

(** X2. At threshold 0 every pixel becomes white; at threshold 255 a pixel
    becomes white only if it is (255,255,255) already, every other pixel
    becomes black. *)
Theorem umbralizar_extremos (p : Pixel) :
  umbralizar p Byte.x00 = blanco
  /\ (umbralizar p Byte.xff = blanco <-> p = blanco)
  /\ (umbralizar p Byte.xff = negro <-> p <> blanco).
Proof.
  pose proof (byte_range (red p)) as Hr.
  pose proof (byte_range (green p)) as Hg.
  pose proof (byte_range (blue p)) as Hb.
  rewrite !umbralizar_casos.
  change (byte.unsigned Byte.x00) with 0. change (byte.unsigned Byte.xff) with 255.
  assert (Hpos : 0 <= (byte.unsigned (red p) + byte.unsigned (green p)
                       + byte.unsigned (blue p)) / 3)
    by (apply Z.div_pos; lia).
  assert (Hblanco : p = blanco <->
                    255 <= (byte.unsigned (red p) + byte.unsigned (green p)
                            + byte.unsigned (blue p)) / 3).
  { split.
    - intros ->. vm_compute. discriminate.
    - intros Havg.
      assert (765 <= byte.unsigned (red p) + byte.unsigned (green p)
                     + byte.unsigned (blue p)).
      { pose proof (Z.mul_div_le (byte.unsigned (red p) + byte.unsigned (green p)
                                  + byte.unsigned (blue p)) 3 ltac:(lia)). lia. }
      destruct p as [b g r]. cbn [red green blue] in *.
      unfold blanco. f_equal; apply byte_de_255; lia. }
  split; [| split].
  - destruct (Z.leb_spec 0 ((byte.unsigned (red p) + byte.unsigned (green p)
                             + byte.unsigned (blue p)) / 3)); [reflexivity | lia].
  - rewrite Hblanco.
    destruct (Z.leb_spec 255 ((byte.unsigned (red p) + byte.unsigned (green p)
                               + byte.unsigned (blue p)) / 3));
      split; intros; try reflexivity; try lia; discriminate.
  - rewrite Hblanco.
    destruct (Z.leb_spec 255 ((byte.unsigned (red p) + byte.unsigned (green p)
                               + byte.unsigned (blue p)) / 3));
      split; intros; try reflexivity; try lia; try discriminate.
Qed.

Lemma umbralizar_extremos_witness : umbralizar gris Byte.xff = negro.
Proof.
  apply (proj2 (proj2 (umbralizar_extremos gris))). discriminate.
Defined.

(** X3. The result of the kernel depends on the pixel only through the sum
    of its channels: two pixels with the same channel sum are mapped to the
    same pixel, so any reordering of the three channels (BGR read as RGB)
    leaves the result unchanged. *)
Theorem umbralizar_por_suma (p q : Pixel) (t : byte) :
  (byte.unsigned (red p) + byte.unsigned (green p) + byte.unsigned (blue p)
   = byte.unsigned (red q) + byte.unsigned (green q) + byte.unsigned (blue q) ->
   umbralizar p t = umbralizar q t)
  /\ umbralizar (mkPixel (red p) (green p) (blue p)) t = umbralizar p t
  /\ umbralizar (mkPixel (green p) (blue p) (red p)) t = umbralizar p t.
Proof.
  split; [| split].
  - intros Hs. rewrite !umbralizar_casos. now rewrite Hs.
  - rewrite !umbralizar_casos. cbn [red green blue].
    replace (byte.unsigned (blue p) + byte.unsigned (green p) + byte.unsigned (red p))
      with (byte.unsigned (red p) + byte.unsigned (green p) + byte.unsigned (blue p))
      by lia.
    reflexivity.
  - rewrite !umbralizar_casos. cbn [red green blue].
    replace (byte.unsigned (red p) + byte.unsigned (blue p) + byte.unsigned (green p))
      with (byte.unsigned (red p) + byte.unsigned (green p) + byte.unsigned (blue p))
      by lia.
    reflexivity.
Qed.

Lemma umbralizar_por_suma_witness :
  umbralizar (mkPixel Byte.x01 Byte.x02 Byte.x03) Byte.x02
  = umbralizar (mkPixel Byte.x02 Byte.x02 Byte.x02) Byte.x02.
Proof.
  apply (proj1 (umbralizar_por_suma (mkPixel Byte.x01 Byte.x02 Byte.x03)
                  (mkPixel Byte.x02 Byte.x02 Byte.x02) Byte.x02)).
  reflexivity.
Defined.

(** ** The command line *)

Lemma to_uchar_periodico (v k : Z) : to_uchar (v + 256 * k) = to_uchar v.
Proof.
  unfold to_uchar. apply byte.unsigned_inj.
  rewrite !byte.unsigned_of_Z. unfold byte.wrap.
  change (2 ^ 8) with 256. rewrite Z.mul_comm. apply Z_mod_plus_full.
Qed.

(** X4. [main] returns 1 without touching any file when the number of
    arguments is not 3, and otherwise uses the parsed threshold modulo 256:
    two threshold arguments that differ by a multiple of 256 give the same
    outcome, so 256 acts as 0 and -1 as 255. *)
Theorem main_umbral_modulo_256 (argc v k : Z) (basura : list byte)
  (numHilos : Z) (entrada : option (list byte)) (creable : bool) :
  (argc <> 4 ->
   main_2_hilos argc (Some v) basura numHilos entrada creable = Salida 1)
  /\ main_2_hilos 4 (Some (v + 256 * k)) basura numHilos entrada creable
     = main_2_hilos 4 (Some v) basura numHilos entrada creable
  /\ main_2_hilos 4 (Some 256) basura numHilos entrada creable
     = main_2_hilos 4 (Some 0) basura numHilos entrada creable
  /\ main_2_hilos 4 (Some (-1)) basura numHilos entrada creable
     = main_2_hilos 4 (Some 255) basura numHilos entrada creable.
Proof.
  split; [| split; [| split]].
  - intros Hargc. unfold main_2_hilos.
    destruct (Z.eqb_spec argc 4); [contradiction | reflexivity].
  - unfold main_2_hilos. cbn [Z.eqb Pos.eqb negb].
    now rewrite to_uchar_periodico.
  - reflexivity.
  - reflexivity.
Qed.

Lemma main_umbral_modulo_256_witness :
  main_2_hilos 3 (Some 128) [] 2 (Some archivo_2x1) true = Salida 1.
Proof.
  apply (proj1 (main_umbral_modulo_256 3 128 0 [] 2 (Some archivo_2x1) true)).
  discriminate.
Defined.

(** ** The partitioner with any number of workers *)

(** X5. For any number of workers from 1 up (also more workers than rows),
    the rows visited by the workers, taken in worker order, are
    0, 1, ..., h-1: every row is visited once. With more workers than rows
    the block size is 0, every worker but the last gets the empty range
    [[0, 0)] and the last one gets all the rows. *)
Theorem particion_cualquier_numero (h W : Z) :
  0 <= h <= INT_MAX -> 1 <= W <= INT_MAX ->
  concat (map filas_de (particion h W)) = rango 0 h
  /\ (h < W ->
      forall i, 0 <= i < W ->
        inicio h W i = 0 /\ fin h W i = if i =? W - 1 then h else 0).
Proof.
  intros Hh HW. split; [now apply particion_concat |].
  intros HhW i Hi.
  assert (Hbs : h / W = 0) by (apply Z.div_small; lia).
  rewrite (inicio_exacto h W Hh HW i Hi), (fin_exacto h W Hh HW i Hi), Hbs.
  split; [lia |]. destruct (i =? W - 1); lia.
Qed.

Lemma particion_cualquier_numero_witness :
  concat (map filas_de (particion 2 4)) = rango 0 2.
Proof.
  apply (particion_cualquier_numero 2 4); unfold INT_MAX; lia.
Defined.

(** X6. Block sizes: every worker but the last gets exactly [h / W] rows
    and the last one gets [h / W + h mod W] rows, that is fewer than [W]
    rows more than the others. *)
Theorem particion_tamanos (h W i : Z) :
  0 <= h <= INT_MAX -> 1 <= W <= INT_MAX -> 0 <= i < W ->
  fin h W i - inicio h W i
  = (if i =? W - 1 then h / W + h mod W else h / W)
  /\ 0 <= h mod W < W.
Proof.
  intros Hh HW Hi.
  rewrite (inicio_exacto h W Hh HW i Hi), (fin_exacto h W Hh HW i Hi).
  pose proof (Z.div_mod h W ltac:(lia)) as Hdm.
  pose proof (Z.mod_pos_bound h W ltac:(lia)) as Hmod.
  split; [| exact Hmod].
  destruct (Z.eqb_spec i (W - 1)) as [-> | _]; nia.
Qed.

Lemma particion_tamanos_witness :
  fin 10 3 2 - inicio 10 3 2 = 4 /\ 0 <= 10 mod 3 < 3.
Proof.
  apply (particion_tamanos 10 3 2); unfold INT_MAX; lia.
Defined.

(** ** Thresholding blocks of rows *)

(** X7. On a rectangular grid and a row range inside it, [umbralizarMatriz]
    returns normally, applies the kernel to every pixel of the rows of
    [[inicio, fin)] and leaves every other row as it was; the dimensions
    of the grid are unchanged. *)
Theorem umbralizarMatriz_bloque (m : Matriz) (w : nat) (umbral : byte) (a b : Z) :
  rectangular w m ->
  0 <= a <= b -> b <= size m ->
  exists m',
    umbralizarMatriz m umbral a b = Ok m'
    /\ length m' = length m
    /\ rectangular w m'
    /\ forall n fila,
         nth_error m n = Some fila ->
         nth_error m' n
         = Some (if (a <=? Z.of_nat n) && (Z.of_nat n <? b)
                 then map (umbralizar_con umbral) fila else fila).
Proof.
  intros Hrect Hab Hb.
  exists (aplicar_rango (map (umbralizar_con umbral)) a b m).
  split; [now apply umbralizarMatriz_ok with (w := w) |].
  split; [apply aplicar_rango_length |].
  split; [now apply rectangular_aplicar_rango |].
  intros n fila Hn. rewrite nth_error_aplicar_rango, Hn. reflexivity.
Qed.

Lemma umbralizarMatriz_bloque_witness :
  exists m',
    umbralizarMatriz [[gris]; [gris]; [gris]] Byte.x32 1 2 = Ok m'
    /\ length m' = 3%nat.
Proof.
  destruct (umbralizarMatriz_bloque [[gris]; [gris]; [gris]] 1 Byte.x32 1 2)
    as [m' (Hm' & Hlen & _)].
  - repeat constructor.
  - lia.
  - vm_compute. discriminate.
  - exists m'. split; [exact Hm' | exact Hlen].
Defined.

(** X8. Two calls of [umbralizarMatriz] on disjoint row ranges commute:
    the grid left by two workers does not depend on which one runs
    first. *)
Theorem trabajadores_conmutan (m : Matriz) (w : nat) (umbral : byte)
  (a b c e : Z) :
  rectangular w m ->
  0 <= a <= b -> b <= c <= e -> e <= size m ->
  (m1 <- umbralizarMatriz m umbral a b ;; umbralizarMatriz m1 umbral c e)
  = (m1 <- umbralizarMatriz m umbral c e ;; umbralizarMatriz m1 umbral a b)
  /\ (m1 <- umbralizarMatriz m umbral a b ;; umbralizarMatriz m1 umbral c e)
     = Ok (aplicar_rango (map (umbralizar_con umbral)) c e
             (aplicar_rango (map (umbralizar_con umbral)) a b m)).
Proof.
  intros Hrect Hab Hce He. split.
  - now apply bloques_conmutan with (w := w).
  - rewrite (umbralizarMatriz_ok umbral m w a b) by (auto; lia).
    cbn [ligar]. apply umbralizarMatriz_ok with (w := w).
    + now apply rectangular_aplicar_rango.
    + lia.
    + rewrite size_aplicar_rango. lia.
Qed.

Lemma trabajadores_conmutan_witness :
  (m1 <- umbralizarMatriz [[gris]; [gris]] Byte.x32 0 1 ;;
   umbralizarMatriz m1 Byte.x32 1 2)
  = (m1 <- umbralizarMatriz [[gris]; [gris]] Byte.x32 1 2 ;;
     umbralizarMatriz m1 Byte.x32 0 1).
Proof.
  apply (trabajadores_conmutan [[gris]; [gris]] 1 Byte.x32 0 1 1 2).
  - repeat constructor.
  - lia.
  - lia.
  - vm_compute. discriminate.
Defined.



(** ** Out-of-range accesses *)

Lemma para_ok_cada {St : Type} (l : list Z) (cuerpo : Z -> St -> resultado St)
  (s s' : St) :
  para l cuerpo s = Ok s' ->
  forall i, In i l -> exists si si', cuerpo i si = Ok si'.
Proof.
  revert s. induction l as [| a l IH]; intros s Hok i Hin; [contradiction |].
  cbn [para] in Hok.
  destruct (cuerpo a s) as [s1 | | |] eqn:Ha; cbn [ligar] in Hok;
    try discriminate.
  destruct Hin as [<- | Hin]; [eauto | eapply IH; eauto].
Qed.

Lemma para_ok_o_indefinido {St : Type} (l : list Z)
  (cuerpo : Z -> St -> resultado St) (s : St) :
  (forall i si, In i l ->
     cuerpo i si = Indefinido \/ exists si', cuerpo i si = Ok si') ->
  para l cuerpo s = Indefinido \/ exists s', para l cuerpo s = Ok s'.
Proof.
  revert s. induction l as [| a l IH]; intros s Hcuerpo; cbn [para].
  - right. eauto.
  - destruct (Hcuerpo a s (or_introl eq_refl)) as [-> | [s1 ->]]; cbn [ligar].
    + now left.
    + apply IH. intros i si Hin. apply Hcuerpo. now right.
Qed.

Lemma indice_casos {A : Type} (v : list A) (i : Z) :
  indice v i = Indefinido \/ exists x, indice v i = Ok x.
Proof.
  unfold indice. destruct (i <? 0); [now left |].
  destruct (nth_error v (Z.to_nat i)); [right; eauto | now left].
Qed.

(** X10. When the row range of [umbralizarMatriz] runs past the last row
    of a rectangular grid with at least one pixel per row, the rows inside
    the grid are processed and the first row index past the end is an
    out-of-range access: the call does not return normally. *)
Theorem umbralizarMatriz_fuera_de_rango (m : Matriz) (w : nat) (umbral : byte)
  (a b : Z) :
  rectangular w m -> (1 <= w)%nat ->
  0 <= a <= size m -> size m < b ->
  umbralizarMatriz m umbral a b = Indefinido.
Proof.
  intros Hrect Hw Ha Hb. unfold umbralizarMatriz.
  rewrite <- (rango_app a (size m) b) by lia.
  rewrite para_app.
  fold (umbralizarMatriz m umbral a (size m)).
  rewrite (umbralizarMatriz_ok umbral m w a (size m)) by (auto; lia).
  cbn [ligar]. rewrite (rango_cons (size m) b) by lia. cbn [para].
  set (m1 := aplicar_rango (map (umbralizar_con umbral)) a (size m) m).
  assert (Hrect1 : rectangular w m1) by now apply rectangular_aplicar_rango.
  assert (Hsize1 : size m1 = size m) by apply size_aplicar_rango.
  replace (umbralizar_fila umbral (size m) m1) with (@Indefinido Matriz);
    [reflexivity |].
  symmetry. unfold umbralizar_fila.
  destruct m1 as [| fila0 resto] eqn:Hm1; [reflexivity |].
  change (indice (fila0 :: resto) 0) with (Ok fila0). cbn [ligar].
  assert (Hw0 : length fila0 = w)
    by (apply (rectangular_nth w (fila0 :: resto) 0%nat); auto).
  rewrite (rango_cons 0 (size fila0)) by (unfold size; lia).
  cbn [para]. unfold umbralizar_celda.
  rewrite indice_fuera by lia. reflexivity.
Qed.

Lemma umbralizarMatriz_fuera_de_rango_witness :
  umbralizarMatriz [[gris]; [gris]] Byte.x32 1 3 = Indefinido.
Proof.
  apply (umbralizarMatriz_fuera_de_rango [[gris]; [gris]] 1 Byte.x32 1 3).
  - repeat constructor.
  - lia.
  - vm_compute. split; discriminate.
  - reflexivity.
Defined.

(** ** The domain of the writer *)

Lemma escribir_pixel_casos (m : Matriz) (i j : Z) (s : list byte) :
  escribir_pixel m i j s = Indefinido \/ exists s', escribir_pixel m i j s = Ok s'.
Proof.
  unfold escribir_pixel.
  destruct (indice_casos m i) as [-> | [fila ->]]; cbn [ligar]; [now left |].
  destruct (indice_casos fila j) as [-> | [px ->]]; cbn [ligar]; [now left |].
  right. eauto.
Qed.

Lemma escribir_fila_casos (m : Matriz) (w i : Z) (s : list byte) :
  escribir_fila m w i s = Indefinido \/ exists s', escribir_fila m w i s = Ok s'.
Proof.
  unfold escribir_fila.
  destruct (para_ok_o_indefinido (rango 0 w)
              (fun j s0 => escribir_pixel m i j s0) s) as [-> | [s1 ->]];
    cbn [ligar].
  - intros j sj _. apply escribir_pixel_casos.
  - now left.
  - apply para_ok_o_indefinido. intros k sk _. right. eauto.
Qed.

Lemma escribir_fila_larga (m : Matriz) (i w : nat) (fila : list Pixel) salida :
  nth_error m i = Some fila ->
  (w <= length fila)%nat ->
  escribir_fila m (Z.of_nat w) (Z.of_nat i) salida
  = Ok (salida ++ bytes_de_fila_cortada w fila).
Proof.
  intros Hfila Hw. unfold escribir_fila.
  destruct (para_invariante_0
              (fun j s => s = salida ++ concat (map bytes_de_pixel (firstn j fila)))
              (fun j s => escribir_pixel m (Z.of_nat i) j s)
              (Z.of_nat w) salida) as [s1 [Hs1 HI1]].
  - lia.
  - cbn. now rewrite app_nil_r.
  - intros j s Hj ->. rewrite Nat2Z.id in Hj.
    destruct (nth_error fila j) as [px |] eqn:Hpx.
    2:{ apply nth_error_None in Hpx. lia. }
    unfold escribir_pixel.
    rewrite (indice_ok m i fila Hfila). cbn [ligar].
    rewrite (indice_ok fila j px Hpx). cbn [ligar].
    eexists. split; [reflexivity |].
    rewrite (firstn_succ_nth_error fila j px Hpx).
    rewrite map_app, concat_app. cbn [map concat]. rewrite app_nil_r.
    unfold write. now rewrite app_assoc.
  - rewrite Hs1. cbn [ligar]. rewrite Nat2Z.id in HI1. subst s1.
    assert (Hpad : 0 <= Z.of_nat w mod 4) by (apply Z.mod_pos_bound; lia).
    destruct (para_invariante_0
                (fun p s => s = (salida ++ concat (map bytes_de_pixel (firstn w fila)))
                                ++ repeat Byte.x00 p)
                (fun (_ : Z) s => Ok (write [Byte.x00] s))
                (Z.of_nat w mod 4)
                (salida ++ concat (map bytes_de_pixel (firstn w fila))))
      as [s2 [Hs2 HI2]].
    + exact Hpad.
    + cbn. now rewrite app_nil_r.
    + intros p s _ ->. eexists. split; [reflexivity |].
      unfold write. rewrite <- app_assoc. f_equal.
      change [Byte.x00] with (repeat Byte.x00 1).
      rewrite <- repeat_app. f_equal. lia.
    + rewrite Hs2, HI2. unfold bytes_de_fila_cortada. now rewrite app_assoc.
Qed.

Lemma escribir_fila_corta (m : Matriz) (i w : nat) (fila : list Pixel) salida :
  nth_error m i = Some fila ->
  (length fila < w)%nat ->
  escribir_fila m (Z.of_nat w) (Z.of_nat i) salida = Indefinido.
Proof.
  intros Hfila Hw. unfold escribir_fila.
  destruct (para_ok_o_indefinido (rango 0 (Z.of_nat w))
              (fun j s0 => escribir_pixel m (Z.of_nat i) j s0) salida)
    as [-> | [s1 Hs1]].
  - intros j sj _. apply escribir_pixel_casos.
  - reflexivity.
  - exfalso.
    destruct (para_ok_cada _ _ _ _ Hs1 (Z.of_nat (length fila))) as [si [si' Hsi]].
    + apply In_rango. lia.
    + unfold escribir_pixel in Hsi.
      rewrite (indice_ok m i fila Hfila) in Hsi. cbn [ligar] in Hsi.
      rewrite indice_fuera in Hsi by (unfold size; lia). discriminate.
Qed.

Lemma guardarMatrizEnBMP_filas_largas (fila0 : list Pixel) (resto : Matriz) :
  Forall (fun fila => (length fila0 <= length fila)%nat) resto ->
  guardarMatrizEnBMP true (fila0 :: resto)
  = Ok (bytes_de_header (header_de_matriz (size (fila0 :: resto)) (size fila0))
        ++ concat (map (bytes_de_fila_cortada (length fila0)) (fila0 :: resto))).
Proof.
  intros Hresto. unfold guardarMatrizEnBMP. cbn [negb].
  change (indice (fila0 :: resto) 0) with (Ok fila0). cbn [ligar].
  set (M := fila0 :: resto) in *. set (w := length fila0).
  assert (HM : Forall (fun fila => (w <= length fila)%nat) M)
    by (constructor; [unfold w; lia | exact Hresto]).
  set (cab := bytes_de_header (header_de_matriz (size M) (size fila0))).
  destruct (para_invariante_0
              (fun k s => s = cab ++ concat (map (bytes_de_fila_cortada w) (firstn k M)))
              (fun i s => escribir_fila M (size fila0) i s)
              (size M) (write cab [])) as [s' [Hs' HI]].
  - unfold size. lia.
  - unfold write. cbn. now rewrite app_nil_r.
  - intros k s Hk ->. unfold size in Hk. rewrite Nat2Z.id in Hk.
    destruct (nth_error M k) as [fila |] eqn:Hfila.
    2:{ apply nth_error_None in Hfila. lia. }
    assert (Hw : (w <= length fila)%nat).
    { rewrite Forall_forall in HM. apply HM. eapply nth_error_In; eauto. }
    unfold size at 1. fold w.
    rewrite (escribir_fila_larga M k w fila _ Hfila Hw).
    eexists. split; [reflexivity |].
    rewrite (firstn_succ_nth_error M k fila Hfila), map_app, concat_app.
    cbn [map concat]. rewrite app_nil_r. now rewrite app_assoc.
  - rewrite Hs', HI. unfold size. now rewrite Nat2Z.id, firstn_all.
Qed.

(** X11. The writer returns normally exactly when the grid is non-empty
    and no row is shorter than row 0; it then writes the header and, for
    each row, its first [matriz[0].size()] pixels and the padding (a longer
    row is cut). On every other grid the writer makes an out-of-range
    access. *)
Theorem guardarMatrizEnBMP_dominio (m : Matriz) :
  ((exists bytes, guardarMatrizEnBMP true m = Ok bytes)
   <-> exists fila0 resto,
         m = fila0 :: resto
         /\ Forall (fun fila => (length fila0 <= length fila)%nat) resto)
  /\ (forall fila0 resto,
        m = fila0 :: resto ->
        Forall (fun fila => (length fila0 <= length fila)%nat) resto ->
        guardarMatrizEnBMP true m
        = Ok (bytes_de_header (header_de_matriz (size m) (size fila0))
              ++ concat (map (bytes_de_fila_cortada (length fila0)) m)))
  /\ (guardarMatrizEnBMP true m = Indefinido
      \/ exists bytes, guardarMatrizEnBMP true m = Ok bytes).
Proof.
  split; [| split].
  - split.
    + intros [bytes Hok]. destruct m as [| fila0 resto]; [discriminate |].
      exists fila0, resto. split; [reflexivity |].
      apply Forall_forall. intros fila Hin.
      apply In_nth_error in Hin. destruct Hin as [k Hk].
      destruct (Nat.le_gt_cases (length fila0) (length fila)) as [Hle | Hgt];
        [exact Hle | exfalso].
      unfold guardarMatrizEnBMP in Hok. cbn [negb] in Hok.
      change (indice (fila0 :: resto) 0) with (Ok fila0) in Hok.
      cbn [ligar] in Hok.
      destruct (para_ok_cada _ _ _ _ Hok (Z.of_nat (S k))) as [si [si' Hsi]].
      * apply In_rango. unfold size. cbn [length].
        assert (k < length resto)%nat by (apply nth_error_Some; congruence). lia.
      * unfold size at 1 in Hsi.
        rewrite (escribir_fila_corta (fila0 :: resto) (S k) (length fila0) fila)
          in Hsi by (auto; lia).
        discriminate.
    + intros (fila0 & resto & -> & Hresto). eexists.
      now apply guardarMatrizEnBMP_filas_largas.
  - intros fila0 resto -> Hresto. now apply guardarMatrizEnBMP_filas_largas.
  - unfold guardarMatrizEnBMP. cbn [negb].
    destruct m as [| fila0 resto]; [now left |].
    change (indice (fila0 :: resto) 0) with (Ok fila0). cbn [ligar].
    apply para_ok_o_indefinido. intros i si _. apply escribir_fila_casos.
Qed.

Lemma guardarMatrizEnBMP_dominio_witness :
  exists bytes, guardarMatrizEnBMP true [[gris]; [gris; blanco]] = Ok bytes.
Proof.
  apply (proj1 (guardarMatrizEnBMP_dominio [[gris]; [gris; blanco]])).
  exists [gris], [[gris; blanco]]. split; [reflexivity |].
  repeat constructor.
Defined.

(** ** The header as bytes *)

Lemma es_int_to_int z : es_int (to_int z).
Proof.
  unfold es_int, to_int, INT_MAX.
  pose proof (Z.mod_pos_bound (z + 2 ^ 31) (2 ^ 32) ltac:(lia)). lia.
Qed.

Lemma to_short_small z : es_short z -> to_short z = z.
Proof.
  unfold es_short, to_short. intros Hz. rewrite Z.mod_small; lia.
Qed.

Ltac campo_en suma :=
  match goal with
  | |- campo_int _ ?n = _ =>
      change n with suma; saltar_campos; rewrite campo_int_cabeza;
      apply to_int_small; assumption
  | |- campo_short _ ?n = _ =>
      change n with suma; saltar_campos; rewrite campo_short_cabeza;
      apply to_short_small; assumption
  end.

(** X12. Header round trip: for every header value that the struct can
    hold, its 54-byte object representation, read back through the fields
    of the struct, gives the same header, whatever bytes follow it. *)
Theorem header_ida_y_vuelta (H : BMPHeader) (extra : list byte) :
  header_valido H ->
  length (bytes_de_header H) = 54%nat
  /\ header_de_bytes (bytes_de_header H ++ extra) = H.
Proof.
  intros Hval. split; [apply length_bytes_de_header |].
  destruct H as [sig fs res off hs w h pl bpp comp ds hr vr col imp].
  unfold header_valido in Hval.
  cbn [signature fileSize reserved dataOffset headerSize width height planes
       bitsPerPixel compression dataSize horizontalResolution
       verticalResolution colors importantColors] in Hval.
  destruct Hval as (Hsig & Hfs & Hres & Hoff & Hhs & Hw & Hh & Hpl & Hbpp
                    & Hcomp & Hds & Hhr & Hvr & Hcol & Himp).
  unfold es_int in *.
  destruct sig as [| c0 [| c1 [| c2 sig]]]; try discriminate Hsig.
  unfold header_de_bytes, bytes_de_header.
  cbn [signature fileSize reserved dataOffset headerSize width height planes
       bitsPerPixel compression dataSize horizontalResolution
       verticalResolution colors importantColors].
  change (firstn 2 ([c0; c1] ++ [Byte.x00; Byte.x00])) with [c0; c1].
  rewrite <- !app_assoc.
  f_equal.
  - campo_en (2 + 0)%nat.
  - campo_en (2 + (4 + 0))%nat.
  - campo_en (2 + (4 + (4 + 0)))%nat.
  - campo_en (2 + (4 + (4 + (4 + 0))))%nat.
  - campo_en (2 + (4 + (4 + (4 + (4 + 0)))))%nat.
  - campo_en (2 + (4 + (4 + (4 + (4 + (4 + 0))))))%nat.
  - campo_en (2 + (4 + (4 + (4 + (4 + (4 + (4 + 0)))))))%nat.
  - campo_en (2 + (4 + (4 + (4 + (4 + (4 + (4 + (2 + 0))))))))%nat.
  - campo_en (2 + (4 + (4 + (4 + (4 + (4 + (4 + (2 + (2 + 0)))))))))%nat.
  - campo_en (2 + (4 + (4 + (4 + (4 + (4 + (4 + (2 + (2 + (4 + 0))))))))))%nat.
  - campo_en (2 + (4 + (4 + (4 + (4 + (4 + (4 + (2 + (2 + (4 + (4 + 0)))))))))))%nat.
  - campo_en (2 + (4 + (4 + (4 + (4 + (4 + (4 + (2 + (2 + (4 + (4 + (4 + 0))))))))))))%nat.
  - campo_en (2 + (4 + (4 + (4 + (4 + (4 + (4 + (2 + (2 + (4 + (4 + (4 + (4 + 0)))))))))))))%nat.
  - campo_en (2 + (4 + (4 + (4 + (4 + (4 + (4 + (2 + (2 + (4 + (4 + (4 + (4 + (4 + 0))))))))))))))%nat.
Qed.

Lemma header_de_matriz_valido (h w : Z) : header_valido (header_de_matriz h w).
Proof.
  unfold header_valido, header_de_matriz.
  cbn [signature fileSize reserved dataOffset headerSize width height planes
       bitsPerPixel compression dataSize horizontalResolution
       verticalResolution colors importantColors].
  repeat split; try apply es_int_to_int;
    try (unfold es_int, es_short, INT_MAX; lia).
Qed.

Lemma header_ida_y_vuelta_witness :
  header_de_bytes (bytes_de_header (header_de_matriz 2 1) ++ [Byte.x64])
  = header_de_matriz 2 1.
Proof.
  apply (header_ida_y_vuelta (header_de_matriz 2 1) [Byte.x64]).
  unfold header_valido, es_int, es_short, INT_MAX.
  cbn [header_de_matriz signature fileSize reserved dataOffset headerSize width
       height planes bitsPerPixel compression dataSize horizontalResolution
       verticalResolution colors importantColors].
  repeat split; vm_compute; try discriminate; reflexivity.
Defined.

(** ** The file that the writer produces *)

Lemma length_bytes_de_matriz (m : Matriz) (w : nat) :
  rectangular w m ->
  Z.of_nat (length (bytes_de_matriz m))
  = size m * (3 * Z.of_nat w + Z.of_nat w mod 4).
Proof.
  intros Hrect. unfold size.
  induction Hrect as [| fila m Hfila Hrect IH].
  - reflexivity.
  - change (bytes_de_matriz (fila :: m))
      with (bytes_de_fila fila ++ bytes_de_matriz m).
    rewrite length_app, Nat2Z.inj_add, IH, length_bytes_de_fila.
    unfold size. rewrite Hfila. cbn [length].
    pose proof (Z.mod_pos_bound (Z.of_nat w) 4 ltac:(lia)). nia.
Qed.

(** X13. For a non-empty rectangular grid of height [h] and width [w]
    whose height and file size fit an [int], the writer produces exactly
    [54 + h * (3*w + w % 4)] bytes, starting with the header built from
    the dimensions of the grid (signature BM, data offset 54, 24 bits per
    pixel, width [w], height [h]); the [fileSize] and [dataSize] fields
    it stores are 2 more than the actual sizes of the file and of the
    pixel data. *)
Theorem archivo_escrito (m : Matriz) (w : nat) :
  m <> [] ->
  rectangular w m ->
  size m <= INT_MAX ->
  54 + size m * (3 * Z.of_nat w + Z.of_nat w mod 4) + 2 <= INT_MAX ->
  exists bytes,
    guardarMatrizEnBMP true m = Ok bytes
    /\ Z.of_nat (length bytes)
       = 54 + size m * (3 * Z.of_nat w + Z.of_nat w mod 4)
    /\ header_de_bytes bytes = header_de_matriz (size m) (Z.of_nat w)
    /\ signature (header_de_bytes bytes) = [Byte.x42; Byte.x4d]
    /\ dataOffset (header_de_bytes bytes) = 54
    /\ bitsPerPixel (header_de_bytes bytes) = 24
    /\ width (header_de_bytes bytes) = Z.of_nat w
    /\ height (header_de_bytes bytes) = size m
    /\ fileSize (header_de_bytes bytes) = Z.of_nat (length bytes) + 2
    /\ dataSize (header_de_bytes bytes) = Z.of_nat (length bytes) - 54 + 2.
Proof.
  intros Hne Hrect Hm Hcabe.
  set (cab := bytes_de_header (header_de_matriz (size m) (Z.of_nat w))).
  exists (cab ++ bytes_de_matriz m).
  split; [now apply guardarMatrizEnBMP_ok |].
  assert (Hlen : Z.of_nat (length (cab ++ bytes_de_matriz m))
                 = 54 + size m * (3 * Z.of_nat w + Z.of_nat w mod 4)).
  { rewrite length_app, Nat2Z.inj_add, (length_bytes_de_matriz m w Hrect).
    unfold cab. rewrite length_bytes_de_header. lia. }
  split; [exact Hlen |].
  destruct (header_ida_y_vuelta (header_de_matriz (size m) (Z.of_nat w))
              (bytes_de_matriz m) (header_de_matriz_valido _ _)) as [_ Hcab].
  fold cab in Hcab. rewrite Hcab, Hlen.
  assert (Hh : 1 <= size m).
  { destruct m; [congruence | unfold size; cbn [length]; lia]. }
  pose proof (Z.mod_pos_bound (Z.of_nat w) 4 ltac:(lia)) as Hmod.
  assert (Hfila : 0 <= 3 * Z.of_nat w + Z.of_nat w mod 4 <= INT_MAX)
    by (unfold INT_MAX in *; nia).
  assert (Hdatos : tamano_datos (size m) (Z.of_nat w)
                   = size m * (3 * Z.of_nat w + Z.of_nat w mod 4)).
  { unfold tamano_datos.
    rewrite (to_size_t_small (3 * Z.of_nat w)) by (unfold INT_MAX in *; lia).
    rewrite (to_size_t_small (3 * Z.of_nat w + Z.of_nat w mod 4))
      by (unfold INT_MAX in *; lia).
    apply to_size_t_small. unfold INT_MAX in *. nia. }
  unfold header_de_matriz.
  cbn [signature fileSize dataOffset bitsPerPixel width height dataSize].
  rewrite Hdatos. unfold sizeof_BMPHeader.
  assert (Hprod : 0 <= size m * (3 * Z.of_nat w + Z.of_nat w mod 4)) by nia.
  assert (Hw : Z.of_nat w <= INT_MAX) by (unfold INT_MAX in *; nia).
  generalize dependent (size m * (3 * Z.of_nat w + Z.of_nat w mod 4)).
  intros P HP _ _ HP0.
  rewrite (to_size_t_small (54 + P)) by (unfold INT_MAX in *; lia).
  rewrite (to_size_t_small (54 + P + 2)) by (unfold INT_MAX in *; lia).
  rewrite (to_size_t_small (P + 2)) by (unfold INT_MAX in *; lia).
  rewrite !to_int_small by (unfold INT_MAX, size in *; lia).
  repeat split; lia.
Qed.

Lemma archivo_escrito_witness :
  exists bytes,
    guardarMatrizEnBMP true [[gris]; [gris]] = Ok bytes
    /\ Z.of_nat (length bytes) = 62.
Proof.
  destruct (archivo_escrito [[gris]; [gris]] 1) as [bytes (Hok & Hlen & _)].
  - discriminate.
  - repeat constructor.
  - vm_compute. discriminate.
  - vm_compute. discriminate.
  - exists bytes. split; [exact Hok | exact Hlen].
Defined.

(** ** What the reader decodes *)

Lemma pixel_de_tres_bytes (bs : list byte) (px : Pixel) :
  length bs = 3%nat ->
  pixel_de_bytes (sobrescribir bs (bytes_de_pixel px)) = pixel_de_bytes bs.
Proof.
  intros Hbs. destruct bs as [| b0 [| b1 [| b2 [| b3 bs]]]]; try discriminate.
  reflexivity.
Qed.

Lemma length_firstn_skipn (archivo : list byte) (n p : nat) :
  length (firstn n (skipn p archivo)) = Nat.min n (length archivo - p).
Proof. now rewrite length_firstn, length_skipn. Qed.

Section Decodificacion.

Variable archivo : list byte.
Variable d : Z.
Variables w h : nat.

Lemma leer_pixel_datos (k j : nat) st :
  inv_datos archivo d w h k j st -> (k < h)%nat -> (j < w)%nat ->
  exists st', leer_pixel archivo (Z.of_nat k) (Z.of_nat j) st = Ok st'
              /\ inv_datos archivo d w h k (S j) st'.
Proof.
  intros (Hlen & Hrect & Hs & Hpx) Hk Hj.
  destruct st as [M s]. cbn [fst snd] in *.
  destruct (nth_error M k) as [fila |] eqn:Hfila.
  2:{ apply nth_error_None in Hfila. lia. }
  assert (Hw : length fila = w) by (eapply rectangular_nth; eauto).
  destruct (nth_error fila j) as [viejo |] eqn:Hviejo.
  2:{ apply nth_error_None in Hviejo. lia. }
  unfold leer_pixel. cbn [fst snd].
  rewrite (indice_ok M k fila Hfila). cbn [ligar].
  rewrite (indice_ok fila j viejo Hviejo). cbn [ligar].
  destruct (read archivo (Z.to_nat sizeof_Pixel) s) as [bs s'] eqn:Hread.
  eexists. split; [reflexivity |].
  rewrite !poner_of_nat.
  unfold inv_datos. cbn [fst snd].
  split; [now rewrite poner_nat_length |].
  split; [apply rectangular_poner_nat; [assumption | now rewrite poner_nat_length] |].
  assert (Hsig : desplazamiento_nat d w k (S j) = desplazamiento_nat d w k j + 3)
    by (unfold desplazamiento_nat; lia).
  destruct Hs as [[Hf Hpos] | [Hf Hfin]].
  - destruct (read_bueno _ _ _ _ _ Hread Hf) as (Hbs & Hle & Hp & Hfb).
    assert (Hlbs : length bs = Nat.min 3 (length archivo - pos s))
      by (rewrite Hbs; apply length_firstn_skipn).
    change (Z.to_nat sizeof_Pixel) with 3%nat in *.
    split.
    + destruct (Nat.ltb_spec (length bs) 3) as [Hlt | Hge].
      * right. split; [exact Hfb | lia].
      * left. split; [exact Hfb | lia].
    + intros i' j' fila' px Hi' Hj' Hantes Hdentro.
      rewrite nth_error_poner_nat in Hi'.
      destruct (Nat.eqb_spec i' k) as [-> | Hik].
      * rewrite Hfila in Hi'. injection Hi' as <-.
        rewrite nth_error_poner_nat in Hj'.
        destruct (Nat.eqb_spec j' j) as [-> | Hjj].
        -- rewrite Hviejo in Hj'. injection Hj' as <-.
           rewrite pixel_de_tres_bytes by lia.
           unfold pixel_en. rewrite Hbs. f_equal. f_equal. f_equal. lia.
        -- apply (Hpx k j' fila px Hfila Hj'); [lia | assumption].
      * apply (Hpx i' j' fila' px Hi' Hj'); [lia | assumption].
  - rewrite (read_fallido _ _ _ Hf) in Hread. injection Hread as <- <-.
    split; [right; split; [assumption | lia] |].
    intros i' j' fila' px Hi' Hj' Hantes Hdentro.
    rewrite nth_error_poner_nat in Hi'.
    destruct (Nat.eqb_spec i' k) as [-> | Hik].
    + rewrite Hfila in Hi'. injection Hi' as <-.
      rewrite nth_error_poner_nat in Hj'.
      destruct (Nat.eqb_spec j' j) as [-> | Hjj]; [lia |].
      apply (Hpx k j' fila px Hfila Hj'); [lia | assumption].
    + apply (Hpx i' j' fila' px Hi' Hj'); [lia | assumption].
Qed.

Lemma leer_fila_datos (k : nat) st :
  inv_datos archivo d w h k 0 st -> (k < h)%nat ->
  exists st', leer_fila archivo (Z.of_nat w) (Z.of_nat k) st = Ok st'
              /\ inv_datos archivo d w h (S k) 0 st'.
Proof.
  intros Hinv Hk. unfold leer_fila.
  destruct (para_invariante_0 (fun j st0 => inv_datos archivo d w h k j st0)
              (fun j st0 => leer_pixel archivo (Z.of_nat k) j st0)
              (Z.of_nat w) st) as [st1 [Hst1 HI]].
  - lia.
  - exact Hinv.
  - intros j st0 Hj Hst0. apply leer_pixel_datos; [assumption | assumption | lia].
  - rewrite Hst1. cbn [ligar]. eexists. split; [reflexivity |].
    rewrite Nat2Z.id in HI.
    destruct HI as (Hlen & Hrect & Hs & Hpx). unfold inv_datos. cbn [fst snd].
    split; [assumption |]. split; [assumption |].
    pose proof (Z.mod_pos_bound (Z.of_nat w) 4 ltac:(lia)) as Hmod.
    assert (Hsig : desplazamiento_nat d w (S k) 0
                   = desplazamiento_nat d w k w + Z.of_nat w mod 4)
      by (unfold desplazamiento_nat; lia).
    split.
    + unfold seekg_cur, seekg.
      destruct Hs as [[Hf Hpos] | [Hf Hfin]]; rewrite Hf.
      * rewrite Z.rem_mod_nonneg by lia.
        destruct (Z.ltb_spec (Z.of_nat (pos (snd st1)) + Z.of_nat w mod 4) 0);
          [lia |].
        left. cbn [failbit pos]. split; [reflexivity | lia].
      * right. split; [assumption | lia].
    + intros i' j' fila px Hi' Hj' Hantes Hdentro.
      apply (Hpx i' j' fila px Hi' Hj'); [| assumption].
      assert (length fila = w) by (eapply rectangular_nth; eauto).
      assert (j' < length fila)%nat by (apply nth_error_Some; congruence).
      lia.
Qed.

Lemma leer_filas_datos st :
  inv_datos archivo d w h 0 0 st ->
  exists st', para (rango 0 (Z.of_nat h))
                (fun i st0 => leer_fila archivo (Z.of_nat w) i st0) st = Ok st'
              /\ inv_datos archivo d w h h 0 st'.
Proof.
  intros Hinv.
  destruct (para_invariante_0 (fun k st0 => inv_datos archivo d w h k 0 st0)
              (fun i st0 => leer_fila archivo (Z.of_nat w) i st0)
              (Z.of_nat h) st) as [st1 [Hst1 HI]].
  - lia.
  - exact Hinv.
  - intros k st0 Hk Hst0. apply leer_fila_datos; [assumption | lia].
  - exists st1. rewrite Nat2Z.id in HI. auto.
Qed.

End Decodificacion.

(** X14. Decoding: when the file holds a complete header with 24 bits per
    pixel, non-negative width and height and a non-negative data offset,
    the reader returns a grid of the declared dimensions in which every
    pixel that lies wholly inside the file holds the three bytes found at
    [dataOffset + i * (3*width + width % 4) + 3*j], in the order blue,
    green, red; this holds for any data offset, not only 54, and whatever
    the later part of the file is like. *)
Theorem leerArchivoBMP_decodifica (basura contenido : list byte) :
  bitsPerPixel (header_leido basura contenido) = 24 ->
  0 <= width (header_leido basura contenido) ->
  0 <= height (header_leido basura contenido) ->
  0 <= dataOffset (header_leido basura contenido) ->
  (54 <= length contenido)%nat ->
  exists M,
    leerArchivoBMP basura (Some contenido) = Ok M
    /\ size M = height (header_leido basura contenido)
    /\ rectangular (Z.to_nat (width (header_leido basura contenido))) M
    /\ forall i j fila px,
         nth_error M i = Some fila -> nth_error fila j = Some px ->
         desplazamiento (header_leido basura contenido) (Z.of_nat i) (Z.of_nat j) + 3
         <= Z.of_nat (length contenido) ->
         px = pixel_en contenido
                (Z.to_nat (desplazamiento (header_leido basura contenido)
                             (Z.of_nat i) (Z.of_nat j))).
Proof.
  intros Hbpp Hw Hh Hd Hlen.
  set (header := header_leido basura contenido) in *.
  rewrite leerArchivoBMP_abierto. fold header. cbv zeta.
  rewrite Hbpp. cbn [Z.eqb Pos.eqb negb].
  unfold vector_n.
  destruct (Z.ltb_spec (width header) 0); [lia |].
  destruct (Z.ltb_spec (height header) 0); [lia |].
  cbn [ligar].
  set (w := Z.to_nat (width header)). set (h := Z.to_nat (height header)).
  replace (width header) with (Z.of_nat w) by (unfold w; lia).
  replace (height header) with (Z.of_nat h) by (unfold h; lia).
  set (s1 := snd (read contenido (Z.to_nat sizeof_BMPHeader) (mkIfstream 0 false))).
  assert (Hs1 : failbit s1 = false).
  { unfold s1, read. cbn [failbit pos snd skipn].
    rewrite length_firstn. apply Nat.ltb_ge.
    change (Z.to_nat sizeof_BMPHeader) with 54%nat. lia. }
  assert (Hinicial : inv_datos contenido (dataOffset header) w h 0 0
                       (repeat (repeat negro w) h,
                        seekg_beg (dataOffset header) s1)).
  { unfold inv_datos. cbn [fst snd].
    split; [apply repeat_length |].
    split; [apply rectangular_repeat, repeat_length |].
    split.
    - left. unfold seekg_beg, seekg. rewrite Hs1.
      destruct (Z.ltb_spec (dataOffset header) 0); [lia |].
      cbn [failbit pos]. split; [reflexivity |].
      unfold desplazamiento_nat. lia.
    - intros i' j' fila px _ _ Hantes. lia. }
  destruct (leer_filas_datos contenido (dataOffset header) w h _ Hinicial)
    as [st' [Hst' (Hl & Hrect & _ & Hpx)]].
  rewrite Hst'. cbn [ligar]. exists (fst st').
  split; [reflexivity |]. split; [unfold size; lia |]. split; [assumption |].
  intros i j fila px Hi Hj Hdentro.
  assert (Hmismo : desplazamiento header (Z.of_nat i) (Z.of_nat j)
                   = desplazamiento_nat (dataOffset header) w i j).
  { unfold desplazamiento, desplazamiento_nat.
    rewrite Z.rem_mod_nonneg by lia.
    replace (Z.of_nat w) with (width header) by (unfold w; lia). reflexivity. }
  rewrite Hmismo in *.
  apply (Hpx i j fila px Hi Hj); [| assumption].
  left.
  assert (i < length (fst st'))%nat by (apply nth_error_Some; congruence). lia.
Qed.

Lemma leerArchivoBMP_decodifica_witness :
  exists M, leerArchivoBMP [] (Some archivo_2x1) = Ok M /\ size M = 2.
Proof.
  destruct (leerArchivoBMP_decodifica [] archivo_2x1) as [M (HM & Hs & _)].
  - vm_compute. reflexivity.
  - vm_compute. discriminate.
  - vm_compute. discriminate.
  - vm_compute. discriminate.
  - vm_compute. lia.
  - exists M. split; [exact HM | exact Hs].
Defined.

(** ** A stream that has failed before the pixel data *)

Lemma leer_pixel_fallido archivo (M : Matriz) (s : ifstream) (i j : nat)
  (fila : list Pixel) (px : Pixel) :
  failbit s = true ->
  nth_error M i = Some fila -> nth_error fila j = Some px ->
  leer_pixel archivo (Z.of_nat i) (Z.of_nat j) (M, s) = Ok (M, s).
Proof.
  intros Hf Hfila Hpx. unfold leer_pixel. cbn [fst snd].
  rewrite (indice_ok M i fila Hfila). cbn [ligar].
  rewrite (indice_ok fila j px Hpx). cbn [ligar].
  rewrite (read_fallido _ _ _ Hf), pixel_sin_bytes, !poner_of_nat.
  rewrite (poner_nat_mismo fila j px Hpx), (poner_nat_mismo M i fila Hfila).
  reflexivity.
Qed.

Lemma leer_fila_fallido archivo (M : Matriz) (s : ifstream) (w i : nat) :
  failbit s = true ->
  rectangular w M -> (i < length M)%nat ->
  leer_fila archivo (Z.of_nat w) (Z.of_nat i) (M, s) = Ok (M, s).
Proof.
  intros Hf Hrect Hi. unfold leer_fila.
  destruct (nth_error M i) as [fila |] eqn:Hfila.
  2:{ apply nth_error_None in Hfila. lia. }
  assert (Hw : length fila = w) by (eapply rectangular_nth; eauto).
  destruct (para_invariante_0 (fun (_ : nat) st => st = (M, s))
              (fun j st => leer_pixel archivo (Z.of_nat i) j st)
              (Z.of_nat w) (M, s)) as [st1 [Hst1 HI]].
  - lia.
  - reflexivity.
  - intros j st Hj ->. rewrite Nat2Z.id in Hj.
    destruct (nth_error fila j) as [px |] eqn:Hpx.
    2:{ apply nth_error_None in Hpx. lia. }
    exists (M, s). split; [| reflexivity].
    now apply leer_pixel_fallido with (fila := fila) (px := px).
  - rewrite Hst1, HI. cbn [ligar fst snd].
    unfold seekg_cur, seekg. rewrite Hf. reflexivity.
Qed.

(** X15. When the file has fewer than the 54 bytes of the header, or the
    header declares a negative data offset, the reader does not reject the
    file: with 24 bits per pixel and non-negative dimensions it returns a
    grid of the declared dimensions in which every pixel is (0,0,0), even
    when pixel data is present in the file. *)
Theorem leerArchivoBMP_sin_datos (basura contenido : list byte) :
  bitsPerPixel (header_leido basura contenido) = 24 ->
  0 <= width (header_leido basura contenido) ->
  0 <= height (header_leido basura contenido) ->
  (length contenido < 54)%nat \/ dataOffset (header_leido basura contenido) < 0 ->
  leerArchivoBMP basura (Some contenido)
  = Ok (repeat (repeat negro (Z.to_nat (width (header_leido basura contenido))))
          (Z.to_nat (height (header_leido basura contenido)))).
Proof.
  intros Hbpp Hw Hh Hcaso.
  set (header := header_leido basura contenido) in *.
  rewrite leerArchivoBMP_abierto. fold header. cbv zeta.
  rewrite Hbpp. cbn [Z.eqb Pos.eqb negb].
  unfold vector_n.
  destruct (Z.ltb_spec (width header) 0); [lia |].
  destruct (Z.ltb_spec (height header) 0); [lia |].
  cbn [ligar].
  set (w := Z.to_nat (width header)). set (h := Z.to_nat (height header)).
  replace (width header) with (Z.of_nat w) by (unfold w; lia).
  replace (height header) with (Z.of_nat h) by (unfold h; lia).
  set (s1 := snd (read contenido (Z.to_nat sizeof_BMPHeader) (mkIfstream 0 false))).
  set (s2 := seekg_beg (dataOffset header) s1).
  assert (Hs2 : failbit s2 = true).
  { unfold s2, seekg_beg, seekg.
    destruct (failbit s1) eqn:Hf1; [exact Hf1 |].
    destruct Hcaso as [Hcorto | Hneg].
    - exfalso. unfold s1, read in Hf1. cbn [failbit pos snd skipn] in Hf1.
      rewrite length_firstn in Hf1. apply Nat.ltb_ge in Hf1.
      change (Z.to_nat sizeof_BMPHeader) with 54%nat in Hf1. lia.
    - destruct (Z.ltb_spec (dataOffset header) 0); [reflexivity | lia]. }
  set (Z0 := repeat (repeat negro w) h).
  assert (Hrect : rectangular w Z0) by apply rectangular_repeat, repeat_length.
  destruct (para_invariante_0 (fun (_ : nat) st => st = (Z0, s2))
              (fun i st => leer_fila contenido (Z.of_nat w) i st)
              (Z.of_nat h) (Z0, s2)) as [st1 [Hst1 HI]].
  - lia.
  - reflexivity.
  - intros k st Hk ->. rewrite Nat2Z.id in Hk.
    exists (Z0, s2). split; [| reflexivity].
    apply leer_fila_fallido; auto.
    unfold Z0. now rewrite repeat_length.
  - rewrite Hst1, HI. reflexivity.
Qed.

Lemma leerArchivoBMP_sin_datos_witness :
  leerArchivoBMP [] (Some archivo_offset_negativo) = Ok [[negro]; [negro]].
Proof.
  apply (leerArchivoBMP_sin_datos [] archivo_offset_negativo).
  - vm_compute. reflexivity.
  - vm_compute. discriminate.
  - vm_compute. discriminate.
  - right. vm_compute. reflexivity.
Defined.

(** ** The programs from input file to output file *)

Lemma leer_lo_escrito (basura : list byte) (m : Matriz) (w : nat) :
  rectangular w m ->
  Z.of_nat w <= INT_MAX ->
  size m <= INT_MAX ->
  leerArchivoBMP basura
    (Some (bytes_de_header (header_de_matriz (size m) (Z.of_nat w))
           ++ bytes_de_matriz m))
  = Ok m.
Proof.
  intros Hrect Hw Hh.
  set (cab := bytes_de_header (header_de_matriz (size m) (Z.of_nat w))).
  assert (Hcab : length cab = 54%nat) by apply length_bytes_de_header.
  assert (Hread : read (cab ++ bytes_de_matriz m) (Z.to_nat sizeof_BMPHeader)
                    (mkIfstream 0 false)
                  = (cab, mkIfstream 54 false)).
  { pose proof (read_exacto (cab ++ bytes_de_matriz m) cab (bytes_de_matriz m)
                  (mkIfstream 0 false) eq_refl eq_refl) as Hr.
    rewrite Hcab in Hr. exact Hr. }
  rewrite leerArchivoBMP_abierto. unfold header_leido. rewrite Hread.
  cbn [fst snd]. unfold sobrescribir.
  destruct (campos_del_header (size m) (Z.of_nat w) (skipn (length cab) basura))
    as (Hbpp & Hoff & Hwidth & Hheight).
  fold cab in Hbpp, Hoff, Hwidth, Hheight.
  cbv zeta. rewrite Hbpp, Hoff, Hwidth, Hheight.
  rewrite !to_int_small by (unfold size, INT_MAX in *; lia).
  cbn [Z.eqb Pos.eqb negb].
  unfold vector_n.
  destruct (Z.ltb_spec (Z.of_nat w) 0); [lia |].
  destruct (Z.ltb_spec (size m) 0); [unfold size in *; lia |].
  cbn [ligar]. rewrite Nat2Z.id.
  replace (Z.to_nat (size m)) with (length m) by (unfold size; lia).
  change (seekg_beg 54 (mkIfstream 54 false)) with (mkIfstream 54 false).
  rewrite <- Hcab at 1.
  rewrite (leer_filas_ok cab m w Hrect). reflexivity.
Qed.

(** Every grid the reader returns has [int] dimensions. *)
Lemma leerArchivoBMP_forma_int basura entrada (M : Matriz) :
  leerArchivoBMP basura entrada = Ok M ->
  exists w, rectangular w M /\ Z.of_nat w <= INT_MAX /\ size M <= INT_MAX.
Proof.
  intros HM. destruct entrada as [c |]; [| discriminate].
  destruct (Z.eq_dec (bitsPerPixel (header_leido basura c)) 24) as [Hbpp | Hbpp].
  - destruct (Z_lt_le_dec (width (header_leido basura c)) 0) as [Hw | Hw].
    { rewrite (leerArchivoBMP_dimension_negativa basura c Hbpp) in HM by auto.
      discriminate. }
    destruct (Z_lt_le_dec (height (header_leido basura c)) 0) as [Hh | Hh].
    { rewrite (leerArchivoBMP_dimension_negativa basura c Hbpp) in HM by auto.
      discriminate. }
    destruct (leerArchivoBMP_devuelve basura c Hbpp Hw Hh)
      as [M' (HM' & Hsize & Hrect & _)].
    rewrite HM in HM'. injection HM' as <-.
    exists (Z.to_nat (width (header_leido basura c))).
    split; [assumption |]. split.
    + rewrite Z2Nat.id by assumption. apply to_int_max.
    + rewrite Hsize. apply to_int_max.
  - rewrite leerArchivoBMP_abierto in HM. cbv zeta in HM.
    destruct (Z.eqb_spec (bitsPerPixel (header_leido basura c)) 24);
      [contradiction | discriminate].
Qed.

Lemma rectangular_umbralizar_todo (w : nat) (m : Matriz) (umbral : byte) :
  rectangular w m -> rectangular w (umbralizar_todo umbral m).
Proof.
  intros Hrect. unfold rectangular, umbralizar_todo.
  apply Forall_map. eapply Forall_impl; [| exact Hrect].
  intros fila Hfila. cbn beta. now rewrite length_map.
Qed.

Lemma size_umbralizar_todo (m : Matriz) (umbral : byte) :
  size (umbralizar_todo umbral m) = size m.
Proof. unfold size, umbralizar_todo. now rewrite length_map. Qed.

Lemma umbralizar_con_dos_veces (umbral : byte) (px : Pixel) :
  umbralizar_con umbral (umbralizar_con umbral px) = umbralizar_con umbral px.
Proof.
  unfold umbralizar_con.
  pose proof (byte_range umbral) as Hu.
  pose proof (byte_range (red px)). pose proof (byte_range (green px)).
  pose proof (byte_range (blue px)).
  assert (0 <= (byte.unsigned (red px) + byte.unsigned (green px)
                + byte.unsigned (blue px)) / 3) by (apply Z.div_pos; lia).
  rewrite (umbralizar_casos px).
  destruct (Z.leb_spec (byte.unsigned umbral)
              ((byte.unsigned (red px) + byte.unsigned (green px)
                + byte.unsigned (blue px)) / 3));
    rewrite umbralizar_casos; cbn.
  - destruct (Z.leb_spec (byte.unsigned umbral) 255); [reflexivity | lia].
  - destruct (Z.leb_spec (byte.unsigned umbral) 0); [lia | reflexivity].
Qed.

Lemma umbralizar_todo_dos_veces (umbral : byte) (m : Matriz) :
  umbralizar_todo umbral (umbralizar_todo umbral m) = umbralizar_todo umbral m.
Proof.
  unfold umbralizar_todo. rewrite map_map. apply map_ext. intros fila.
  rewrite map_map. apply map_ext. intros px. apply umbralizar_con_dos_veces.
Qed.

(** What [2_hilos] and [4_openMP] leave in the output file, for an input
    that the reader accepts with at least one row. *)
Lemma salida_de_hilos basura W entrada umbral (M : Matriz) :
  leerArchivoBMP basura entrada = Ok M ->
  M <> [] ->
  1 <= W <= INT_MAX ->
  exists w,
    rectangular w M /\ Z.of_nat w <= INT_MAX /\ size M <= INT_MAX
    /\ main_hilos basura W entrada true umbral
       = Ok (bytes_de_header (header_de_matriz (size M) (Z.of_nat w))
             ++ bytes_de_matriz (umbralizar_todo umbral M))
    /\ main_omp basura entrada true umbral
       = main_hilos basura W entrada true umbral.
Proof.
  intros HM Hne HW.
  destruct (leerArchivoBMP_forma_int _ _ _ HM) as [w (Hrect & Hw & Hsize)].
  exists w. split; [assumption |]. split; [assumption |]. split; [assumption |].
  rewrite main_hilos_ok, main_omp_ok by assumption. rewrite HM. cbn [ligar].
  split; [| reflexivity].
  rewrite (guardarMatrizEnBMP_ok (umbralizar_todo umbral M) w).
  - now rewrite size_umbralizar_todo.
  - destruct M; [congruence | discriminate].
  - now apply rectangular_umbralizar_todo.
Qed.

(** X16. End to end: when the reader accepts the input with at least one
    row, [2_hilos] (with any number of workers from 1 up) and [4_openMP]
    both return normally with the same output file, and reading that file
    back gives the input grid with the kernel applied to every pixel; the
    output has the dimensions of the input. *)
Theorem salida_releida (basura basura' : list byte) (W : Z)
  (entrada : option (list byte)) (umbral : byte) (M : Matriz) :
  leerArchivoBMP basura entrada = Ok M ->
  M <> [] ->
  1 <= W <= INT_MAX ->
  exists salida,
    main_hilos basura W entrada true umbral = Ok salida
    /\ main_omp basura entrada true umbral = Ok salida
    /\ leerArchivoBMP basura' (Some salida) = Ok (umbralizar_todo umbral M)
    /\ size (umbralizar_todo umbral M) = size M.
Proof.
  intros HM Hne HW.
  destruct (salida_de_hilos basura W entrada umbral M HM Hne HW)
    as [w (Hrect & Hw & Hsize & Hh & Ho)].
  eexists. split; [exact Hh |]. split; [now rewrite Ho |].
  split; [| apply size_umbralizar_todo].
  rewrite <- (size_umbralizar_todo M umbral).
  apply leer_lo_escrito.
  - now apply rectangular_umbralizar_todo.
  - assumption.
  - now rewrite size_umbralizar_todo.
Qed.

Lemma salida_releida_witness :
  exists salida,
    main_hilos [] 3 (Some archivo_2x1) true Byte.x32 = Ok salida
    /\ leerArchivoBMP [] (Some salida) = Ok [[blanco]; [blanco]].
Proof.
  destruct (salida_releida [] [] 3 (Some archivo_2x1) Byte.x32 [[gris]; [gris]])
    as [salida (Hh & _ & Hl & _)].
  - vm_compute. reflexivity.
  - discriminate.
  - unfold INT_MAX. lia.
  - exists salida. split; [exact Hh | exact Hl].
Defined.

(** X17. Running the program on its own output with the same threshold
    reproduces that output byte for byte: if [2_hilos] returns normally
    with a file, then [2_hilos] applied to that file (with any number of
    workers from 1 up) returns the same file. *)
Theorem programa_idempotente (basura basura' : list byte) (W W' : Z)
  (entrada : option (list byte)) (umbral : byte) (salida : list byte) :
  main_hilos basura W entrada true umbral = Ok salida ->
  1 <= W <= INT_MAX ->
  1 <= W' <= INT_MAX ->
  main_hilos basura' W' (Some salida) true umbral = Ok salida.
Proof.
  intros Hsal HW HW'.
  destruct (leerArchivoBMP basura entrada) as [M | | |] eqn:HM;
    try (rewrite main_hilos_ok in Hsal by assumption; rewrite HM in Hsal;
         discriminate).
  assert (Hne : M <> []).
  { intros ->. rewrite main_hilos_ok in Hsal by assumption.
    rewrite HM in Hsal. discriminate. }
  destruct (salida_de_hilos basura W entrada umbral M HM Hne HW)
    as [w (Hrect & Hw & Hsize & Hh & _)].
  rewrite Hh in Hsal.
  assert (Hs : salida
               = bytes_de_header (header_de_matriz (size M) (Z.of_nat w))
                 ++ bytes_de_matriz (umbralizar_todo umbral M)) by congruence.
  clear Hsal. subst salida.
  assert (Hre : leerArchivoBMP basura'
                  (Some (bytes_de_header (header_de_matriz (size M) (Z.of_nat w))
                         ++ bytes_de_matriz (umbralizar_todo umbral M)))
                = Ok (umbralizar_todo umbral M)).
  { rewrite <- (size_umbralizar_todo M umbral).
    apply leer_lo_escrito.
    - now apply rectangular_umbralizar_todo.
    - assumption.
    - now rewrite size_umbralizar_todo. }
  rewrite main_hilos_ok by assumption. rewrite Hre. cbn [ligar].
  rewrite umbralizar_todo_dos_veces.
  rewrite (guardarMatrizEnBMP_ok (umbralizar_todo umbral M) w).
  - now rewrite size_umbralizar_todo.
  - destruct M; [congruence | discriminate].
  - now apply rectangular_umbralizar_todo.
Qed.

Lemma programa_idempotente_witness :
  exists salida,
    main_hilos [] 2 (Some archivo_2x1) true Byte.x32 = Ok salida
    /\ main_hilos [] 4 (Some salida) true Byte.x32 = Ok salida.
Proof.
  assert (H : main_hilos [] 2 (Some archivo_2x1) true Byte.x32
              = guardarMatrizEnBMP true [[blanco]; [blanco]])
    by (vm_compute; reflexivity).
  destruct (guardarMatrizEnBMP true [[blanco]; [blanco]]) as [salida | | |] eqn:Hg;
    try (vm_compute in Hg; discriminate).
  exists salida. split; [exact H |].
  apply (programa_idempotente [] [] 2 4 (Some archivo_2x1) Byte.x32 salida H);
    unfold INT_MAX; lia.
Defined.

(** ** The process variant in general *)





(** ** An image without rows *)


